(** * pysme: grid convergence and derivative-term algebra

    A shallow embedding of [grid_conv.py] and [integrate.py].

    Conventions of the embedding.
    - A numpy [float64] is idealised as a real number ([R]); the only place
      where the floating-point special values matter, the logarithms of
      [calc_rate], is modelled with an explicit extended type ([xfloat]).
    - A one-dimensional numpy array is a [list R]; a column vector of shape
      [(n,1)] is the list of its entries; a square array is the list of its
      rows.
    - Python exceptions are the [Raise] results of [result]; code that also
      draws from the process-wide generator [np.random] lives in the monad
      [Py]. *)

From Stdlib Require Import String.
From Stdlib Require Import Reals List Arith Lia Lra Bool.
Import ListNotations.

Open Scope R_scope.

(** ** Exceptions *)

Inductive pyerror : Type :=
| ValueError
| IndexError
| AttributeError
| TypeError.

Inductive result (A : Type) : Type :=
| Ok (a : A)
| Raise (e : pyerror).

Arguments Ok {A} a.
Arguments Raise {A} e.

Definition rbind {A B : Type} (m : result A) (k : A -> result B) : result B :=
  match m with
  | Ok a => k a
  | Raise e => Raise e
  end.

Declare Scope result_scope.
Delimit Scope result_scope with result.
Notation "x <- m ;; k" := (rbind m (fun x => k))
  (at level 61, m at next level, right associativity) : result_scope.

(** ** One-dimensional numpy arrays *)

Module Np.

Definition array := list R.

(** [a[start::step]] for [start >= 0] and [step >= 1]. *)
Fixpoint slice_from {A : Type} (start step : nat) (a : list A) : list A :=
  match a with
  | [] => []
  | x :: a' =>
      match start with
      | O => x :: slice_from (pred step) step a'
      | S k => slice_from k step a'
      end
  end.

(** Two arrays of one shape combined entry by entry. *)
Fixpoint map2 {A B C : Type} (f : A -> B -> C) (x : list A) (y : list B)
  : list C :=
  match x, y with
  | a :: x', b :: y' => f a b :: map2 f x' y'
  | _, _ => []
  end.

(** An arithmetic operator between two one-dimensional arrays (or two
    columns): equal shapes combine entry by entry, a shape [(1,)] is
    stretched to the other one, anything else is numpy's
    "operands could not be broadcast together" [ValueError]. *)
Definition broadcast (f : R -> R -> R) (x y : array) : result array :=
  if (length x =? length y)%nat then Ok (map2 f x y)
  else if (length x =? 1)%nat then Ok (map (f (hd 0 x)) y)
  else if (length y =? 1)%nat then Ok (map (fun a => f a (hd 0 y)) x)
  else Raise ValueError.

Definition add : array -> array -> result array := broadcast Rplus.
Definition sub : array -> array -> result array := broadcast Rminus.

(** [s * a] and [a / s] for a scalar [s]. *)
Definition smul (s : R) (a : array) : array := map (Rmult s) a.
Definition sdiv (a : array) (s : R) : array := map (fun v => v / s) a.

(** [np.abs] and [np.sum]. *)
Definition abs (a : array) : array := map Rabs a.
Definition sum (a : array) : R := fold_right Rplus 0 a.

(** [a[-1]] on a sequence: the last entry, [IndexError] when there is none. *)
Fixpoint last_entry {A : Type} (a : list A) : result A :=
  match a with
  | [] => Raise IndexError
  | [x] => Ok x
  | _ :: a' => last_entry a'
  end.

End Np.

(** ** The floating-point values of the rate

    [l1_norm] of a finite array is a finite number, but [np.log] of it need
    not be: [np.log(0.0)] is [-inf] (numpy warns and goes on), and the
    difference of two infinities is [nan]. *)

Inductive xfloat : Type :=
| Fin (x : R)
| PInf
| NInf
| NaN.

(** [np.log] of a finite value. *)
Definition np_log (x : R) : xfloat :=
  if Rlt_dec 0 x then Fin (ln x)
  else if Req_dec_T x 0 then NInf
  else NaN.

(** IEEE subtraction. *)
Definition xsub (a b : xfloat) : xfloat :=
  match a, b with
  | NaN, _ | _, NaN => NaN
  | Fin x, Fin y => Fin (x - y)
  | Fin _, PInf => NInf
  | Fin _, NInf => PInf
  | PInf, PInf => NaN
  | PInf, _ => PInf
  | NInf, NInf => NaN
  | NInf, _ => NInf
  end.

(** IEEE division by a finite positive divisor (here [np.log(2)]). *)
Definition xdiv_pos (a : xfloat) (d : R) : xfloat :=
  match a with
  | Fin x => Fin (x / d)
  | other => other
  end.

(** ** The interpreter state: numpy's process-wide generator

    [np.random.randn] reads the next samples of one global stream.  The
    stream is a tape of reals and a cursor on it. *)

Record rng : Type := { tape : nat -> R; cursor : nat }.

Definition Py (A : Type) : Type := rng -> result (A * rng).

Definition ret {A : Type} (a : A) : Py A := fun g => Ok (a, g).

Definition raise {A : Type} (e : pyerror) : Py A := fun _ => Raise e.

Definition bind {A B : Type} (m : Py A) (k : A -> Py B) : Py B :=
  fun g => match m g with
           | Ok (a, g') => k a g'
           | Raise e => Raise e
           end.

Definition lift {A : Type} (r : result A) : Py A :=
  fun g => match r with
           | Ok a => Ok (a, g)
           | Raise e => Raise e
           end.

Declare Scope py_scope.
Delimit Scope py_scope with py.
Notation "x <- m ;; k" := (bind m (fun x => k))
  (at level 61, m at next level, right associativity) : py_scope.
Notation "' pat <- m ;; k" := (bind m (fun x => match x with pat => k end))
  (at level 61, pat pattern, m at next level, right associativity) : py_scope.

(** [np.random.randn(n)]: [n] samples; a negative dimension is a
    [ValueError]. *)
Definition randn (n : Z) : Py Np.array :=
  fun g =>
    if (n <? 0)%Z then Raise ValueError
    else Ok (map (tape g) (seq (cursor g) (Z.to_nat n)),
             {| tape := tape g; cursor := cursor g + Z.to_nat n |}).

(** [x = default if x is None else x], for a default that draws samples. *)
Definition or_randn (x : option Np.array) (n : Z) : Py Np.array :=
  match x with
  | None => randn n
  | Some a => ret a
  end.

(** [len(times) - 1] *)
Definition len_minus_1 (times : Np.array) : Z := (Z.of_nat (length times) - 1)%Z.

(** ** grid_conv.py *)

Open Scope result_scope.

(** [l1_norm(vec)] *)
Definition l1_norm (vec : Np.array) : R := Np.sum (Np.abs vec).

(** [double_increments(times, U1s, U2s=None)].  The two-tuple returned when
    [U2s is None] is the triple with [None] in third place. *)
Definition double_increments (times U1s : Np.array) (U2s : option Np.array)
  : result (Np.array * Np.array * option Np.array) :=
  let new_times := Np.slice_from 0 2 times in
  let even_U1s := Np.slice_from 0 2 U1s in
  let odd_U1s := Np.slice_from 1 2 U1s in
  s1 <- Np.add even_U1s odd_U1s ;;
  let new_U1s := Np.sdiv s1 (sqrt 2) in
  match U2s with
  | None => Ok (new_times, new_U1s, None)
  | Some U2s =>
      let even_U2s := Np.slice_from 0 2 U2s in
      let odd_U2s := Np.slice_from 1 2 U2s in
      d1 <- Np.sub even_U1s odd_U1s ;;
      s2 <- Np.add (Np.smul (sqrt 3) d1) even_U2s ;;
      s3 <- Np.add s2 odd_U2s ;;
      Ok (new_times, new_U1s, Some (Np.sdiv s3 (2 * sqrt 2)))
  end.

(** [a, b, c = t]: a two-tuple does not unpack into three names. *)
Definition unpack3 (t : Np.array * Np.array * option Np.array)
  : result (Np.array * Np.array * Np.array) :=
  match t with
  | (a, b, Some c) => Ok (a, b, c)
  | (_, _, None) => Raise ValueError
  end.

Close Scope result_scope.

(** A trajectory: one state (a column of reals) per time point. *)
Definition trajectory := list Np.array.

(** What [calc_rate] asks of its [integrator] argument: a method
    [integrate(rho_0, times, U1s, U2s)]. *)
Class Integrator (Self State0 : Type) : Type :=
  integrate : Self -> State0 -> Np.array -> option Np.array ->
              option Np.array -> Py trajectory.

Open Scope py_scope.

(** [calc_rate(integrator, rho_0, times, U1s=None, U2s=None)] *)
Definition calc_rate {Self State0 : Type} `{Integrator Self State0}
    (integrator : Self) (rho_0 : State0) (times : Np.array)
    (U1s U2s : option Np.array) : Py xfloat :=
  let increments := len_minus_1 times in
  U1s <- or_randn U1s increments ;;
  U2s <- or_randn U2s increments ;;
  '(times_2, U1s_2, U2s_2) <-
     lift (rbind (double_increments times U1s (Some U2s)) unpack3) ;;
  '(times_4, U1s_4, U2s_4) <-
     lift (rbind (double_increments times_2 U1s_2 (Some U2s_2)) unpack3) ;;
  rhos <- integrate integrator rho_0 times (Some U1s) (Some U2s) ;;
  rhos_2 <- integrate integrator rho_0 times_2 (Some U1s_2) (Some U2s_2) ;;
  rhos_4 <- integrate integrator rho_0 times_4 (Some U1s_4) (Some U2s_4) ;;
  rho_4_T <- lift (Np.last_entry rhos_4) ;;
  rho_2_T <- lift (Np.last_entry rhos_2) ;;
  d_42 <- lift (Np.sub rho_4_T rho_2_T) ;;
  rho_2_T' <- lift (Np.last_entry rhos_2) ;;
  rho_T <- lift (Np.last_entry rhos) ;;
  d_21 <- lift (Np.sub rho_2_T' rho_T) ;;
  ret (xdiv_pos (xsub (np_log (l1_norm d_42)) (np_log (l1_norm d_21)))
                (ln 2)).

Close Scope py_scope.

(** ** Linear algebra on well-shaped operands

    What [np.dot], [*] and [+] compute in [integrate.py]: the state [rho] is
    a column of [n] reals, [k_T] and its products a row of [n] reals, the
    operators [n] rows of [n] reals.  [np.dot] of a row and a column is a
    one-entry array, which multiplies (and adds to) any array as a scalar
    does.  numpy raises on operands whose shapes do not agree; the functions
    below are total, and the theorems about them take the shapes
    ([vec_shape], [mat_shape]) as hypotheses. *)

Module La.

Definition vector := list R.
Definition matrix := list (list R).

Definition vec_shape (n : nat) (x : vector) : bool := (length x =? n)%nat.

Definition mat_shape (n : nat) (A : matrix) : bool :=
  (length A =? n)%nat && forallb (vec_shape n) A.

(** [np.dot(k_T, rho)] *)
Definition dot (x y : vector) : R := Np.sum (Np.map2 Rmult x y).

(** [x + y] and [c * x] on columns. *)
Definition vadd (x y : vector) : vector := Np.map2 Rplus x y.
Definition vscale (c : R) (x : vector) : vector := map (Rmult c) x.

(** [x + c] for a column [x] and a one-entry array [c]: the entry is added
    to every component. *)
Definition vshift (x : vector) (c : R) : vector := map (fun v => v + c) x.

(** [A + B] and [c * A] on square arrays. *)
Definition madd (A B : matrix) : matrix := Np.map2 vadd A B.
Definition mscale (c : R) (A : matrix) : matrix := map (vscale c) A.

(** [np.dot(A, rho)] *)
Definition matvec (A : matrix) (x : vector) : vector :=
  map (fun row => dot row x) A.

(** [np.dot(k_T, A)]: the combination of the rows of [A] with the entries
    of [k_T] as coefficients. *)
Fixpoint vecmat (k : vector) (A : matrix) : vector :=
  match k, A with
  | c :: k', row :: A' =>
      match A' with
      | [] => vscale c row
      | _ => vadd (vscale c row) (vecmat k' A')
      end
  | _, _ => []
  end.

(** [np.dot(A, B)] *)
Definition matmul (A B : matrix) : matrix := map (fun row => vecmat row B) A.

End La.

Import La.

(** ** integrate.py: derivative-term algebra *)

(** [b_dx_b(G2, k_T_G, G, k_T, rho)] *)
Definition b_dx_b (G2 : matrix) (k_T_G : vector) (G : matrix)
    (k_T rho : vector) : vector :=
  let k_rho_dot := dot k_T rho in
  vadd (vscale (dot k_T_G rho + 2 * k_rho_dot ^ 2) rho)
       (matvec (madd G2 (mscale (2 * k_rho_dot) G)) rho).

(** [b_dx_a(QG, k_T, Q, rho)] *)
Definition b_dx_a (QG : matrix) (k_T : vector) (Q : matrix) (rho : vector)
  : vector :=
  matvec (madd QG (mscale (dot k_T rho) Q)) rho.

(** [a_dx_b(GQ, k_T, Q, k_T_Q, rho)] *)
Definition a_dx_b (GQ : matrix) (k_T : vector) (Q : matrix)
    (k_T_Q rho : vector) : vector :=
  vshift (matvec (madd GQ (mscale (dot k_T rho) Q)) rho) (dot k_T_Q rho).

(** [a_dx_a(Q2, rho)] *)
Definition a_dx_a (Q2 : matrix) (rho : vector) : vector := matvec Q2 rho.

(** [b_dx_b_dx_b(G3, G2, G, k_T, k_T_G, k_T_G2, rho)] *)
Definition b_dx_b_dx_b (G3 G2 G : matrix) (k_T k_T_G k_T_G2 rho : vector)
  : vector :=
  let k_rho_dot := dot k_T rho in
  let k_T_G_rho_dot := dot k_T_G rho in
  let k_T_G2_rho_dot := dot k_T_G2 rho in
  vadd (matvec (madd (madd G3 (mscale (3 * k_rho_dot) G2))
                     (mscale (3 * (k_T_G_rho_dot + 2 * k_rho_dot)) G))
               rho)
       (vscale (k_T_G2_rho_dot + 6 * k_rho_dot * k_T_G_rho_dot
                + 6 * k_rho_dot ^ 3) rho).

(** ** integrate.py: the integrator classes

    The modules [pysme.system_builder] and [pysme.sde] are not part of the
    sources at hand; what the classes use of them is taken as given. *)

(** A complex number, as its real and imaginary parts. *)
Definition complex : Type := R * R.
Definition real (z : complex) : R := fst z.

(** [pysme.system_builder]: operators and their vectorization in a basis. *)
Class system_builder : Type := {
  operator : Type;
  vectorize : operator -> list operator -> list complex
}.

(** [pysme.sde]: the steppers, driven over a whole time grid.  The drift
    and diffusion callbacks of [milstein] and [faulty_milstein] take the
    state and the time, those of [time_ind_taylor_1_5] the state only. *)
Class sde : Type := {
  milstein :
    (vector -> R -> vector) -> (vector -> R -> vector) ->
    (vector -> R -> vector) -> vector -> Np.array -> Np.array ->
    result trajectory;
  faulty_milstein :
    (vector -> R -> vector) -> (vector -> R -> vector) ->
    (vector -> R -> vector) -> vector -> Np.array -> Np.array ->
    result trajectory;
  time_ind_taylor_1_5 :
    (vector -> vector) -> (vector -> vector) -> (vector -> vector) ->
    (vector -> vector) -> (vector -> vector) -> (vector -> vector) ->
    (vector -> vector) -> vector -> Np.array -> Np.array -> Np.array ->
    result trajectory
}.

Section Integrators.
Context {SB : system_builder} {SDE : sde}.

(** [np.array([[comp.real] for comp in vectorize(rho_0, self.basis)])] *)
Definition rho_0_vec_of (rho_0 : operator) (basis : list operator) : vector :=
  map real (vectorize rho_0 basis).

(** *** class Taylor_1_5_HomodyneIntegrator *)

Record Taylor_1_5_HomodyneIntegrator : Type := {
  T_basis : list operator;
  T_Q : matrix;
  T_G : matrix;
  T_k_T : vector;
  T_G2 : matrix;
  T_G3 : matrix;
  T_Q2 : matrix;
  T_QG : matrix;
  T_GQ : matrix;
  T_k_T_G : vector;
  T_k_T_G2 : vector;
  T_k_T_Q : vector
}.

(** [__init__], from the point where [self.Q] and [self.G, self.k_T] have
    been built by [system_builder]. *)
Definition Taylor_1_5_init (basis : list operator) (Q G : matrix)
    (k_T : vector) : Taylor_1_5_HomodyneIntegrator :=
  let G2 := matmul G G in
  {| T_basis := basis;
     T_Q := Q;
     T_G := G;
     T_k_T := k_T;
     T_G2 := G2;
     T_G3 := matmul G2 G;
     T_Q2 := matmul Q Q;
     T_QG := matmul Q G;
     T_GQ := matmul G Q;
     T_k_T_G := vecmat k_T G;
     T_k_T_G2 := vecmat k_T G2;
     T_k_T_Q := vecmat k_T Q |}.

Definition T_a_fn (self : Taylor_1_5_HomodyneIntegrator) (rho : vector)
  : vector :=
  matvec (T_Q self) rho.

Definition T_b_fn (self : Taylor_1_5_HomodyneIntegrator) (rho : vector)
  : vector :=
  vadd (vscale (dot (T_k_T self) rho) rho) (matvec (T_G self) rho).

Definition T_b_dx_b_fn (self : Taylor_1_5_HomodyneIntegrator) (rho : vector)
  : vector :=
  b_dx_b (T_G2 self) (T_k_T_G self) (T_G self) (T_k_T self) rho.

Definition T_b_dx_a_fn (self : Taylor_1_5_HomodyneIntegrator) (rho : vector)
  : vector :=
  b_dx_a (T_QG self) (T_k_T self) (T_Q self) rho.

Definition T_a_dx_b_fn (self : Taylor_1_5_HomodyneIntegrator) (rho : vector)
  : vector :=
  a_dx_b (T_GQ self) (T_k_T self) (T_Q self) (T_k_T_Q self) rho.

Definition T_a_dx_a_fn (self : Taylor_1_5_HomodyneIntegrator) (rho : vector)
  : vector :=
  a_dx_a (T_Q2 self) rho.

Definition T_b_dx_b_dx_b_fn (self : Taylor_1_5_HomodyneIntegrator)
    (rho : vector) : vector :=
  b_dx_b_dx_b (T_G3 self) (T_G2 self) (T_G self) (T_k_T self) (T_k_T_G self)
              (T_k_T_G2 self) rho.

Open Scope py_scope.

Definition T_integrate (self : Taylor_1_5_HomodyneIntegrator)
    (rho_0 : operator) (times : Np.array) (U1s U2s : option Np.array)
  : Py trajectory :=
  let rho_0_vec := rho_0_vec_of rho_0 (T_basis self) in
  U1s <- or_randn U1s (len_minus_1 times) ;;
  U2s <- or_randn U2s (len_minus_1 times) ;;
  lift (time_ind_taylor_1_5 (T_a_fn self) (T_b_fn self) (T_b_dx_b_fn self)
          (T_b_dx_a_fn self) (T_a_dx_b_fn self) (T_a_dx_a_fn self)
          (T_b_dx_b_dx_b_fn self) rho_0_vec times U1s U2s).

(** *** class MilsteinHomodyneIntegrator *)

Record MilsteinHomodyneIntegrator : Type := {
  M_basis : list operator;
  M_Q : matrix;
  M_G : matrix;
  M_k_T : vector;
  M_k_T_G : vector;
  M_G2 : matrix
}.

Definition Milstein_init (basis : list operator) (Q G : matrix) (k_T : vector)
  : MilsteinHomodyneIntegrator :=
  {| M_basis := basis;
     M_Q := Q;
     M_G := G;
     M_k_T := k_T;
     M_k_T_G := vecmat k_T G;
     M_G2 := matmul G G |}.

Definition M_a_fn (self : MilsteinHomodyneIntegrator) (rho : vector) (t : R)
  : vector :=
  matvec (M_Q self) rho.

Definition M_b_fn (self : MilsteinHomodyneIntegrator) (rho : vector) (t : R)
  : vector :=
  vadd (vscale (dot (M_k_T self) rho) rho) (matvec (M_G self) rho).

Definition M_b_dx_b_fn (self : MilsteinHomodyneIntegrator) (rho : vector)
    (t : R) : vector :=
  b_dx_b (M_G2 self) (M_k_T_G self) (M_G self) (M_k_T self) rho.

Definition M_integrate (self : MilsteinHomodyneIntegrator)
    (rho_0 : operator) (times : Np.array) (U1s U2s : option Np.array)
  : Py trajectory :=
  let rho_0_vec := rho_0_vec_of rho_0 (M_basis self) in
  U1s <- or_randn U1s (len_minus_1 times) ;;
  lift (milstein (M_a_fn self) (M_b_fn self) (M_b_dx_b_fn self) rho_0_vec
          times U1s).

(** *** class FaultyMilsteinHomodyneIntegrator(MilsteinHomodyneIntegrator) *)

Record FaultyMilsteinHomodyneIntegrator : Type := {
  as_Milstein : MilsteinHomodyneIntegrator
}.

Definition F_integrate (self : FaultyMilsteinHomodyneIntegrator)
    (rho_0 : operator) (times : Np.array) (U1s U2s : option Np.array)
  : Py trajectory :=
  let self := as_Milstein self in
  let rho_0_vec := rho_0_vec_of rho_0 (M_basis self) in
  U1s <- or_randn U1s (len_minus_1 times) ;;
  lift (faulty_milstein (M_a_fn self) (M_b_fn self) (M_b_dx_b_fn self)
          rho_0_vec times U1s).

Close Scope py_scope.

#[export] Instance Taylor_1_5_Integrator
  : Integrator Taylor_1_5_HomodyneIntegrator operator := T_integrate.

#[export] Instance Milstein_Integrator
  : Integrator MilsteinHomodyneIntegrator operator := M_integrate.

#[export] Instance FaultyMilstein_Integrator
  : Integrator FaultyMilsteinHomodyneIntegrator operator := F_integrate.

End Integrators.

(** ** The call protocol of the integrator objects

    [calc_rate] evaluates [integrator.integrate(rho_0, times, U1s, U2s)]:
    an attribute lookup on the object it was handed, then a call with four
    positional arguments.  For this, an object is what [integrate.py]
    declares it to be: a module-level function with its parameter list, or an
    instance of a class with its methods. *)

Module PyObj.

Open Scope string_scope.

Record param : Type := { pname : string; has_default : bool }.

(** [name] and [name=None] in a parameter list. *)
Definition req (name : string) : param :=
  {| pname := name; has_default := false |}.
Definition opt (name : string) : param :=
  {| pname := name; has_default := true |}.

Definition params := list param.

#[warnings="-register-all"]
Inductive pyclass : Type :=
| Class (name : string) (base : option pyclass)
        (methods : list (string * params)).

Inductive pyobj : Type :=
| Function (name : string) (ps : params)
| Instance (cls : pyclass).

Fixpoint assoc (name : string) (ms : list (string * params)) : option params :=
  match ms with
  | [] => None
  | (m, ps) :: ms' => if String.eqb name m then Some ps else assoc name ms'
  end.

(** Method resolution: the class first, then its base. *)
Fixpoint find_method (c : pyclass) (name : string) : option params :=
  match c with
  | Class _ base ms =>
      match assoc name ms with
      | Some ps => Some ps
      | None =>
          match base with
          | Some b => find_method b name
          | None => None
          end
      end
  end.

(** [obj.name]: the parameters of the bound method, [self] taken. *)
Definition getattr (o : pyobj) (name : string) : result params :=
  match o with
  | Function _ _ => Raise AttributeError
  | Instance c =>
      match find_method c name with
      | Some ps => Ok (tl ps)
      | None => Raise AttributeError
      end
  end.

(** A call with [nargs] positional arguments binds them to the parameters
    from the left: it is a [TypeError] when there are more arguments than
    parameters, or when a parameter without default is left unbound. *)
Definition binds (ps : params) (nargs : nat) : bool :=
  (nargs <=? length ps)%nat
  && forallb has_default (skipn nargs ps).

Definition call (ps : params) (nargs : nat) : result (list string) :=
  if binds ps nargs then Ok (map pname (firstn nargs ps))
  else Raise TypeError.

(** [obj.integrate(a1, ..., an)], up to the binding of the arguments: the
    names the arguments are bound to. *)
Definition call_integrate (o : pyobj) (nargs : nat) : result (list string) :=
  rbind (getattr o "integrate") (fun ps => call ps nargs).

(** *** The declarations of integrate.py *)

Definition uncond_vac_integrate : pyobj :=
  Function "uncond_vac_integrate"
    [req "rho_0"; req "c_op"; req "basis"; req "times"].

Definition uncond_gauss_integrate : pyobj :=
  Function "uncond_gauss_integrate"
    [req "rho_0"; req "c_op"; req "M_sq"; req "N"; req "H"; req "basis";
     req "times"].

Definition integrate_params : params :=
  [req "self"; req "rho_0"; req "times"; opt "U1s"; opt "U2s"].

Definition init_params : params :=
  [req "self"; req "c_op"; req "M_sq"; req "N"; req "H"; req "basis"].

Definition Taylor_1_5_HomodyneIntegrator : pyclass :=
  Class "Taylor_1_5_HomodyneIntegrator" None
    [("__init__", init_params);
     ("a_fn", [req "self"; req "rho"]);
     ("b_fn", [req "self"; req "rho"]);
     ("b_dx_b_fn", [req "self"; req "rho"]);
     ("b_dx_a_fn", [req "self"; req "rho"]);
     ("a_dx_b_fn", [req "self"; req "rho"]);
     ("a_dx_a_fn", [req "self"; req "rho"]);
     ("b_dx_b_dx_b_fn", [req "self"; req "rho"]);
     ("integrate", integrate_params)].

Definition MilsteinHomodyneIntegrator : pyclass :=
  Class "MilsteinHomodyneIntegrator" None
    [("__init__", init_params);
     ("a_fn", [req "self"; req "rho"; req "t"]);
     ("b_fn", [req "self"; req "rho"; req "t"]);
     ("b_dx_b_fn", [req "self"; req "rho"; req "t"]);
     ("integrate", integrate_params)].

Definition FaultyMilsteinHomodyneIntegrator : pyclass :=
  Class "FaultyMilsteinHomodyneIntegrator" (Some MilsteinHomodyneIntegrator)
    [("integrate", integrate_params)].

(** The integrator variants, and the object of [integrate.py] that each one
    is. *)
Inductive variant : Type :=
| Taylor_1_5
| Milstein
| FaultyMilstein
| UncondVac
| UncondGauss.

Definition variant_object (v : variant) : pyobj :=
  match v with
  | Taylor_1_5 => Instance Taylor_1_5_HomodyneIntegrator
  | Milstein => Instance MilsteinHomodyneIntegrator
  | FaultyMilstein => Instance FaultyMilsteinHomodyneIntegrator
  | UncondVac => uncond_vac_integrate
  | UncondGauss => uncond_gauss_integrate
  end.

(** The uniform contract [integrate(initial_state, times, U1s=None,
    U2s=None)]. *)
Definition uniform_contract : params :=
  [req "rho_0"; req "times"; opt "U1s"; opt "U2s"].

Definition exposes_uniform_contract (o : pyobj) : Prop :=
  getattr o "integrate" = Ok uniform_contract.

(** The parameters an object takes when it is called itself. *)
Definition own_params (o : pyobj) : params :=
  match o with
  | Function _ ps => ps
  | Instance _ => []
  end.

Definition takes (o : pyobj) (name : string) : bool :=
  existsb (fun p => String.eqb (pname p) name) (own_params o).

Close Scope string_scope.

End PyObj.

(** ** Reference notions the statements are measured against *)

(** The directional derivative of the field [f] at [x] along [v] is [L]:
    every component of [t |-> f (x + t v)] has derivative [L_i] at [t = 0]. *)
Definition dir_deriv (f : vector -> vector) (x v L : vector) : Prop :=
  length L = length x /\
  forall i : nat, (i < length x)%nat ->
    derivable_pt_lim (fun t => nth i (f (vadd x (vscale t v))) 0) 0
                     (nth i L 0).

(** The drift [a(rho) = Q rho] and the diffusion
    [b(rho) = (k^T rho) rho + G rho]. *)
Definition a_field (Q : matrix) (rho : vector) : vector := matvec Q rho.

Definition b_field (G : matrix) (k : vector) (rho : vector) : vector :=
  vadd (vscale (dot k rho) rho) (matvec G rho).

(** [(b.grad) b], the field whose derivative along [b] is [(b.grad)^2 b]:
    at each [x] it is the derivative of [b] at [x] along [b x]. *)
Definition b_grad_b_field (G : matrix) (k : vector) (x : vector) : vector :=
  let b := b_field G k x in
  vadd (vadd (vscale (dot k b) x) (vscale (dot k x) b)) (matvec G b).

(** [((k^T G rho) + 2 (k^T rho)^2) rho + G^2 rho + 2 (k^T rho) G rho] *)
Definition b_dx_b_closed (G : matrix) (k rho : vector) : vector :=
  let s := dot k rho in
  let Grho := matvec G rho in
  vadd (vadd (vscale (dot k Grho + 2 * s ^ 2) rho) (matvec G Grho))
       (vscale (2 * s) Grho).

(** [G Q rho + (k^T rho) Q rho + (k^T Q rho) rho] *)
Definition a_dx_b_closed (G Q : matrix) (k rho : vector) : vector :=
  let Qrho := matvec Q rho in
  vadd (vadd (matvec G Qrho) (vscale (dot k rho) Qrho))
       (vscale (dot k Qrho) rho).

(** [G^3 rho + 3 (k^T rho) G^2 rho + 3 ((k^T G rho) + 2 (k^T rho)^2) G rho
     + ((k^T G^2 rho) + 6 (k^T rho) (k^T G rho) + 6 (k^T rho)^3) rho] *)
Definition b_dx_b_dx_b_closed (G : matrix) (k rho : vector) : vector :=
  let s := dot k rho in
  let Grho := matvec G rho in
  let G2rho := matvec G Grho in
  let G3rho := matvec G G2rho in
  vadd (vadd (vadd G3rho (vscale (3 * s) G2rho))
             (vscale (3 * (dot k Grho + 2 * s ^ 2)) Grho))
       (vscale (dot k G2rho + 6 * s * dot k Grho + 6 * s ^ 3) rho).

(** The coarsening of the noise by adjacent pairs of fine increments:
    [U1'_i = (U1_{2i} + U1_{2i+1}) / sqrt 2] and
    [U2'_i = (sqrt 3 (U1_{2i} - U1_{2i+1}) + U2_{2i} + U2_{2i+1}) / (2 sqrt 2)]. *)
Fixpoint coarsen_U1 (U1 : list R) : list R :=
  match U1 with
  | a :: b :: rest => (a + b) / sqrt 2 :: coarsen_U1 rest
  | _ => []
  end.

Fixpoint coarsen_U2 (U1 U2 : list R) : list R :=
  match U1, U2 with
  | a :: b :: rest1, c :: d :: rest2 =>
      (sqrt 3 * (a - b) + c + d) / (2 * sqrt 2) :: coarsen_U2 rest1 rest2
  | _, _ => []
  end.

(** The entrywise absolute-value sum of a difference. *)
Definition l1_dist (x y : vector) : R :=
  Np.sum (Np.map2 (fun a b => Rabs (a - b)) x y).

(** ** A deterministic test integrator

    Explicit Euler steps for [d rho / dt = lam * rho] over the grid: no
    diffusion, and the noise arguments are accepted and left unused.  With
    [lam = 0] the state never moves. *)

Record EulerIntegrator : Type := { lam : R }.

Fixpoint euler_steps (l : R) (rho : vector) (t : R) (times : list R)
  : trajectory :=
  match times with
  | [] => []
  | t' :: rest =>
      let rho' := vadd rho (vscale (l * (t' - t)) rho) in
      rho' :: euler_steps l rho' t' rest
  end.

Definition euler_integrate (self : EulerIntegrator) (rho_0 : vector)
    (times : Np.array) (U1s U2s : option Np.array) : Py trajectory :=
  match times with
  | [] => ret []
  | t0 :: rest => ret (rho_0 :: euler_steps (lam self) rho_0 t0 rest)
  end.

#[export] Instance Euler_Integrator : Integrator EulerIntegrator vector :=
  euler_integrate.

(** ** grid_conv.py: the batch of trajectories *)

(** [np.random.randn(rows, cols)]: the rows are filled one after the other
    from the stream; a negative dimension is a [ValueError]. *)
Fixpoint draw_rows (rows cols : nat) (g : rng) : list Np.array * rng :=
  match rows with
  | O => ([], g)
  | S r =>
      let row := map (tape g) (seq (cursor g) cols) in
      let (rest, g') :=
        draw_rows r cols {| tape := tape g; cursor := cursor g + cols |} in
      (row :: rest, g')
  end.

Definition randn2 (rows cols : Z) : Py (list Np.array) :=
  fun g =>
    if ((rows <? 0) || (cols <? 0))%Z then Raise ValueError
    else Ok (draw_rows (Z.to_nat rows) (Z.to_nat cols) g).

Definition or_randn2 (x : option (list Np.array)) (rows cols : Z)
  : Py (list Np.array) :=
  match x with
  | None => randn2 rows cols
  | Some a => ret a
  end.

(** The calls [f(U1s, U2s)] over the pairs of rows, in their order, each on
    the generator the one before left; the first exception ends the batch. *)
Fixpoint run_batch {A : Type} (f : Np.array -> Np.array -> Py A)
    (pairs : list (Np.array * Np.array)) : Py (list A) :=
  match pairs with
  | [] => ret []
  | (U1s, U2s) :: rest =>
      bind (f U1s U2s) (fun r =>
      bind (run_batch f rest) (fun rs => ret (r :: rs)))
  end.

(** [strong_grid_convergence(integrator, rho_0, times, U1s_arr=None,
    U2s_arr=None, trajectories=256, n_jobs=1)], for [n_jobs=1] (the
    default), where [joblib.Parallel] makes the calls one after the other in
    the calling process.  [zip] stops at the shorter of the two arrays. *)
Definition strong_grid_convergence {Self State0 : Type}
    `{Integrator Self State0} (integrator : Self) (rho_0 : State0)
    (times : Np.array) (U1s_arr U2s_arr : option (list Np.array))
    (trajectories : Z) : Py (list xfloat) :=
  let increments := len_minus_1 times in
  bind (or_randn2 U1s_arr trajectories increments) (fun U1s_arr =>
  bind (or_randn2 U2s_arr trajectories increments) (fun U2s_arr =>
  run_batch
    (fun U1s U2s => calc_rate integrator rho_0 times (Some U1s) (Some U2s))
    (combine U1s_arr U2s_arr))).

(** ** integrate.py: the unconditional integrators

    The operator builders of [pysme.system_builder] and [scipy]'s [odeint]
    are taken as given.  [odeint(func, y0, t, Dfun=...)] receives the
    right-hand side and its Jacobian as functions of the state and the
    time. *)

Class liouvillian_builder {SB : system_builder} : Type := {
  conj_T : operator -> operator;
  diffusion_op : operator -> list operator -> matrix;
  double_comm_op : operator -> complex -> list operator -> matrix;
  hamiltonian_op : operator -> list operator -> matrix
}.

Class ode_solver : Type :=
  odeint : (vector -> R -> vector) -> vector -> Np.array ->
           (vector -> R -> matrix) -> result trajectory.

Section Unconditional.
Context {SB : system_builder} {LB : liouvillian_builder} {ODE : ode_solver}.

(** [lambda rho_vec, t: np.dot(diff_mat, rho_vec)] *)
Definition linear_func (diff_mat : matrix) : vector -> R -> vector :=
  fun rho_vec t => matvec diff_mat rho_vec.

(** [lambda rho_vec, t: diff_mat] *)
Definition linear_Dfun (diff_mat : matrix) : vector -> R -> matrix :=
  fun rho_vec t => diff_mat.

(** The generator of the vacuum master equation. *)
Definition vac_diff_mat (c_op : operator) (basis : list operator) : matrix :=
  diffusion_op c_op (removelast basis).

(** The generator of the Gaussian master equation. *)
Definition gauss_diff_mat (c_op : operator) (M_sq : complex) (N : R)
    (H : operator) (basis : list operator) : matrix :=
  madd (madd (madd (mscale (N + 1) (diffusion_op c_op (removelast basis)))
                   (mscale N (diffusion_op (conj_T c_op) (removelast basis))))
             (double_comm_op c_op M_sq (removelast basis)))
       (hamiltonian_op H (removelast basis)).

(** [uncond_vac_integrate(rho_0, c_op, basis, times)] *)
Definition uncond_vac_integrate (rho_0 c_op : operator)
    (basis : list operator) (times : Np.array) : result trajectory :=
  let rho_0_vec := map real (vectorize rho_0 basis) in
  let diff_mat := vac_diff_mat c_op basis in
  odeint (linear_func diff_mat) rho_0_vec times (linear_Dfun diff_mat).

(** [uncond_gauss_integrate(rho_0, c_op, M_sq, N, H, basis, times)] *)
Definition uncond_gauss_integrate (rho_0 c_op : operator) (M_sq : complex)
    (N : R) (H : operator) (basis : list operator) (times : Np.array)
  : result trajectory :=
  let rho_0_vec := map real (vectorize rho_0 basis) in
  let diff_mat := gauss_diff_mat c_op M_sq N H basis in
  odeint (linear_func diff_mat) rho_0_vec times (linear_Dfun diff_mat).

End Unconditional.

(** The derivative of the field [f] at [x] is the matrix [J]: along every
    direction [v] of the dimension of [x] the directional derivative is
    [J v]. *)
Definition jacobian_at (f : vector -> vector) (x : vector) (J : matrix)
  : Prop :=
  forall v : vector, length v = length x -> dir_deriv f x v (matvec J v).

(** The samples [start, start + n) of the stream. *)
Definition samples (g : rng) (start n : nat) : Np.array :=
  map (tape g) (seq start n).

(** The generator after [n] more samples. *)
Definition advance (g : rng) (n : nat) : rng :=
  {| tape := tape g; cursor := cursor g + n |}.

(** [2^p] for a real exponent. *)
Definition two_to (p : R) : R := exp (p * ln 2).

(** Collaborators for the tests: one operator, a fixed vectorization and
    fixed generators of dimension 2, and a solver that returns its initial
    state. *)
Definition test_system_builder : system_builder :=
  {| operator := unit; vectorize := fun _ _ => [(1, 0); (2, 0)] |}.

Definition test_liouvillian_builder
  : @liouvillian_builder test_system_builder :=
  {| conj_T := fun c => c;
     diffusion_op := fun _ _ => [[1; 2]; [3; 4]];
     double_comm_op := fun _ _ _ => [[0; 0]; [0; 0]];
     hamiltonian_op := fun _ _ => [[0; 1]; [-1; 0]] |}.

Definition test_ode_solver : ode_solver := fun _ y0 _ _ => Ok [y0].

(** A generator for the tests: every sample is 0. *)
Definition rng0 : rng := {| tape := fun _ => 0; cursor := 0 |}.

(** A function applied, kept folded while the argument side is rewritten. *)
Definition held (g : R -> R) (t : R) : R := g t.

(** * Properties *)

(** ** Checks on concrete inputs *)

Example slice_even_indices :
  Np.slice_from 0 2 [10; 11; 12; 13; 14] = [10; 12; 14].
Proof. reflexivity. Qed.

Example slice_odd_indices :
  Np.slice_from 1 2 [10; 11; 12; 13; 14] = [11; 13].
Proof. reflexivity. Qed.

Example slice_stride_4 :
  Np.slice_from 0 4 [0; 1; 2; 3; 4; 5; 6; 7; 8] = [0; 4; 8].
Proof. reflexivity. Qed.

Example add_stretches_one_entry :
  Np.add [1; 2; 3] [10] = Ok [1 + 10; 2 + 10; 3 + 10].
Proof. reflexivity. Qed.

Example add_refuses_3_and_2 : Np.add [1; 2; 3] [1; 2] = Raise ValueError.
Proof. reflexivity. Qed.

Example add_of_1_and_0_is_empty : Np.add [1] [] = Ok [].
Proof. reflexivity. Qed.

Example last_entry_of_none : Np.last_entry (@nil Np.array) = Raise IndexError.
Proof. reflexivity. Qed.

Example randn_negative_dimension : randn (-1) rng0 = Raise ValueError.
Proof. reflexivity. Qed.

Example randn_advances_the_cursor :
  randn 3 rng0 = Ok ([0; 0; 0], {| tape := tape rng0; cursor := 3 |}).
Proof. reflexivity. Qed.

Example matmul_2x2 :
  matmul [[1; 2]; [3; 4]] [[0; 1]; [1; 0]] = [[2; 1]; [4; 3]].
Proof.
  unfold matmul, vecmat, vadd, vscale. simpl.
  repeat (f_equal; try ring).
Qed.

Example vecmat_2x2 : vecmat [1; 2] [[1; 2]; [3; 4]] = [7; 10].
Proof.
  unfold vecmat, vadd, vscale. simpl. repeat (f_equal; try ring).
Qed.

Example integrate_with_five_arguments :
  PyObj.call_integrate (PyObj.Instance PyObj.MilsteinHomodyneIntegrator) 5
  = Raise TypeError.
Proof. reflexivity. Qed.

Example integrate_with_one_argument :
  PyObj.call_integrate (PyObj.Instance PyObj.Taylor_1_5_HomodyneIntegrator) 1
  = Raise TypeError.
Proof. reflexivity. Qed.

Example faulty_inherits_init :
  PyObj.find_method PyObj.FaultyMilsteinHomodyneIntegrator "__init__"
  = Some PyObj.init_params.
Proof. reflexivity. Qed.

(** ** Slices *)

Section Slices.
Context {A : Type}.

Lemma nth_nil (i : nat) (d : A) : nth i [] d = d.
Proof. destruct i; reflexivity. Qed.

(** [a[start::step][i] = a[start + i*step]] *)
Lemma nth_slice_from (step : nat) (Hstep : (0 < step)%nat) (d : A) :
  forall (a : list A) (start i : nat),
    nth i (Np.slice_from start step a) d = nth (start + i * step) a d.
Proof.
  induction a as [|x a IH]; intros start i.
  - now rewrite !nth_nil.
  - simpl. destruct start as [|k].
    + destruct i as [|j]; simpl; [reflexivity|].
      rewrite IH. destruct step as [|p]; [lia|]. simpl.
      f_equal.
    + rewrite IH. reflexivity.
Qed.

(** [a[s2::k][s1::j] = a[s2 + s1*k :: j*k]] *)
Lemma slice_from_slice_from (j k : nat) (Hj : (0 < j)%nat) (Hk : (0 < k)%nat) :
  forall (a : list A) (s1 s2 : nat),
    Np.slice_from s1 j (Np.slice_from s2 k a)
    = Np.slice_from (s2 + s1 * k) (j * k) a.
Proof.
  induction a as [|x a IH]; intros s1 s2; simpl; [reflexivity|].
  destruct s2 as [|s2]; simpl.
  - destruct s1 as [|s1]; simpl.
    + f_equal. rewrite IH. f_equal. nia.
    + rewrite IH.
      replace (k + s1 * k)%nat with (S (pred k + s1 * k)) by lia.
      reflexivity.
  - apply IH.
Qed.

Lemma slice_from_odd (x : A) (a : list A) :
  Np.slice_from 1 2 (x :: a) = Np.slice_from 0 2 a.
Proof. reflexivity. Qed.

(** [len(a[::2]) = (len(a) + 1) // 2] and [len(a[1::2]) = len(a) // 2]. *)
Lemma length_slice_even_odd (a : list A) :
  length (Np.slice_from 0 2 a) = Nat.div2 (S (length a))
  /\ length (Np.slice_from 1 2 a) = Nat.div2 (length a).
Proof.
  induction a as [|x a [IHe IHo]]; [split; reflexivity|].
  split.
  - change (Np.slice_from 0 2 (x :: a)) with (x :: Np.slice_from 1 2 a).
    simpl length. rewrite IHo. reflexivity.
  - rewrite slice_from_odd, IHe. reflexivity.
Qed.

Lemma length_slice_even (a : list A) :
  length (Np.slice_from 0 2 a) = ((length a + 1) / 2)%nat.
Proof.
  rewrite (proj1 (length_slice_even_odd a)), Nat.div2_div.
  f_equal. lia.
Qed.

Lemma length_slice_odd (a : list A) :
  length (Np.slice_from 1 2 a) = (length a / 2)%nat.
Proof.
  rewrite (proj2 (length_slice_even_odd a)). apply Nat.div2_div.
Qed.

End Slices.

(** ** Entry-wise operations *)

Lemma length_map2 {A B C : Type} (f : A -> B -> C) :
  forall (x : list A) (y : list B),
    length (Np.map2 f x y) = Nat.min (length x) (length y).
Proof.
  induction x as [|a x IH]; intros [|b y]; simpl; auto.
Qed.

Lemma nth_map2 {A B C : Type} (f : A -> B -> C) (da : A) (db : B) (dc : C) :
  forall (x : list A) (y : list B) (i : nat),
    (i < length x)%nat -> (i < length y)%nat ->
    nth i (Np.map2 f x y) dc = f (nth i x da) (nth i y db).
Proof.
  induction x as [|a x IH]; intros [|b y] i Hx Hy; simpl in *; try lia.
  destruct i as [|i]; [reflexivity|]. apply IH; lia.
Qed.

Lemma nth_map_lt {A B : Type} (f : A -> B) (da : A) (db : B) :
  forall (x : list A) (i : nat),
    (i < length x)%nat -> nth i (map f x) db = f (nth i x da).
Proof.
  intros x i Hi.
  rewrite (nth_indep _ db (f da)) by now rewrite length_map.
  apply map_nth.
Qed.

Lemma broadcast_same_shape (f : R -> R -> R) (x y : Np.array) :
  length x = length y -> Np.broadcast f x y = Ok (Np.map2 f x y).
Proof.
  intros H. unfold Np.broadcast. now rewrite H, Nat.eqb_refl.
Qed.

Lemma broadcast_raises (f : R -> R -> R) (x y : Np.array) :
  length x <> length y -> length x <> 1%nat -> length y <> 1%nat ->
  Np.broadcast f x y = Raise ValueError.
Proof.
  intros H1 H2 H3. unfold Np.broadcast.
  now rewrite (proj2 (Nat.eqb_neq _ _) H1), (proj2 (Nat.eqb_neq _ _) H2),
    (proj2 (Nat.eqb_neq _ _) H3).
Qed.

(** ** Increment coarsening *)

(** A list of even length is built from adjacent pairs. *)
Lemma even_length_pairs_ind {A : Type} (P : list A -> Prop) :
  P [] -> (forall a b l, P l -> P (a :: b :: l)) ->
  forall (m : nat) (l : list A), length l = (2 * m)%nat -> P l.
Proof.
  intros H0 H2. induction m as [|m IH]; intros l Hl.
  - destruct l; [exact H0 | discriminate].
  - destruct l as [|a [|b l]]; simpl in Hl; try lia.
    apply H2, IH. lia.
Qed.

Lemma coarsen_U1_slices (m : nat) (U1s : list R) :
  length U1s = (2 * m)%nat ->
  Np.sdiv (Np.map2 Rplus (Np.slice_from 0 2 U1s) (Np.slice_from 1 2 U1s))
          (sqrt 2)
  = coarsen_U1 U1s.
Proof.
  revert m U1s. apply even_length_pairs_ind; [reflexivity|].
  intros a b l IH. simpl. f_equal. exact IH.
Qed.

Lemma coarsen_U2_slices :
  forall (m : nat) (U1s U2s : list R),
    length U1s = (2 * m)%nat -> length U2s = (2 * m)%nat ->
    Np.sdiv
      (Np.map2 Rplus
         (Np.map2 Rplus
            (Np.smul (sqrt 3)
               (Np.map2 Rminus (Np.slice_from 0 2 U1s) (Np.slice_from 1 2 U1s)))
            (Np.slice_from 0 2 U2s))
         (Np.slice_from 1 2 U2s))
      (2 * sqrt 2)
    = coarsen_U2 U1s U2s.
Proof.
  induction m as [|m IH]; intros U1s U2s H1 H2.
  - destruct U1s; [|discriminate]. reflexivity.
  - destruct U1s as [|a [|b U1s]]; simpl in H1; try lia.
    destruct U2s as [|c [|d U2s]]; simpl in H2; try lia.
    simpl. f_equal. apply IH; lia.
Qed.

Lemma length_coarsen_U1 (m : nat) (U1s : list R) :
  length U1s = (2 * m)%nat -> length (coarsen_U1 U1s) = m.
Proof.
  revert U1s. induction m as [|m IH]; intros U1s H.
  - destruct U1s; [reflexivity | discriminate].
  - destruct U1s as [|a [|b U1s]]; simpl in H; try lia.
    simpl. f_equal. apply IH. lia.
Qed.

Lemma length_coarsen_U2 (m : nat) :
  forall U1s U2s : list R,
    length U1s = (2 * m)%nat -> length U2s = (2 * m)%nat ->
    length (coarsen_U2 U1s U2s) = m.
Proof.
  induction m as [|m IH]; intros U1s U2s H1 H2.
  - destruct U1s; [reflexivity | discriminate].
  - destruct U1s as [|a [|b U1s]]; simpl in H1; try lia.
    destruct U2s as [|c [|d U2s]]; simpl in H2; try lia.
    simpl. f_equal. apply IH; lia.
Qed.

Lemma nth_coarsen_U1 (m : nat) :
  forall (U1s : list R) (i : nat),
    length U1s = (2 * m)%nat -> (i < m)%nat ->
    nth i (coarsen_U1 U1s) 0
    = (nth (2 * i) U1s 0 + nth (2 * i + 1) U1s 0) / sqrt 2.
Proof.
  induction m as [|m IH]; intros U1s i H Hi; [lia|].
  destruct U1s as [|a [|b U1s]]; simpl in H; try lia.
  destruct i as [|i]; [reflexivity|].
  replace (2 * S i)%nat with (S (S (2 * i))) by lia.
  simpl nth. apply IH; lia.
Qed.

Lemma nth_coarsen_U2 (m : nat) :
  forall (U1s U2s : list R) (i : nat),
    length U1s = (2 * m)%nat -> length U2s = (2 * m)%nat -> (i < m)%nat ->
    nth i (coarsen_U2 U1s U2s) 0
    = (sqrt 3 * (nth (2 * i) U1s 0 - nth (2 * i + 1) U1s 0)
       + nth (2 * i) U2s 0 + nth (2 * i + 1) U2s 0) / (2 * sqrt 2).
Proof.
  induction m as [|m IH]; intros U1s U2s i H1 H2 Hi; [lia|].
  destruct U1s as [|a [|b U1s]]; simpl in H1; try lia.
  destruct U2s as [|c [|d U2s]]; simpl in H2; try lia.
  destruct i as [|i]; [reflexivity|].
  replace (2 * S i)%nat with (S (S (2 * i))) by lia.
  simpl nth. apply IH; lia.
Qed.

(** On noise of even length the code returns the pairwise coarsening. *)
Lemma double_increments_even (m : nat) (times U1s U2s : list R) :
  length U1s = (2 * m)%nat -> length U2s = (2 * m)%nat ->
  double_increments times U1s (Some U2s)
  = Ok (Np.slice_from 0 2 times, coarsen_U1 U1s, Some (coarsen_U2 U1s U2s))
  /\ double_increments times U1s None
     = Ok (Np.slice_from 0 2 times, coarsen_U1 U1s, None).
Proof.
  intros H1 H2.
  assert (He1 : length (Np.slice_from 0 2 U1s) = m).
  { rewrite length_slice_even, H1.
    replace (2 * m + 1)%nat with (1 + m * 2)%nat by lia.
    rewrite Nat.div_add by lia. reflexivity. }
  assert (Ho1 : length (Np.slice_from 1 2 U1s) = m).
  { rewrite length_slice_odd, H1, Nat.mul_comm. apply Nat.div_mul. lia. }
  assert (He2 : length (Np.slice_from 0 2 U2s) = m).
  { rewrite length_slice_even, H2.
    replace (2 * m + 1)%nat with (1 + m * 2)%nat by lia.
    rewrite Nat.div_add by lia. reflexivity. }
  assert (Ho2 : length (Np.slice_from 1 2 U2s) = m).
  { rewrite length_slice_odd, H2, Nat.mul_comm. apply Nat.div_mul. lia. }
  unfold double_increments, Np.add, Np.sub.
  rewrite !broadcast_same_shape by congruence. simpl rbind.
  rewrite broadcast_same_shape
    by (unfold Np.smul; rewrite length_map, length_map2; lia).
  simpl rbind.
  rewrite broadcast_same_shape
    by (unfold Np.smul; rewrite !length_map2, length_map, length_map2; lia).
  simpl rbind.
  rewrite (coarsen_U1_slices m), (coarsen_U2_slices m) by assumption.
  split; reflexivity.
Qed.

(** C1.  On a time sequence of length [n+1] and noise sequences of length
    [n], [n] even, [double_increments] returns the times at every other
    index ([n/2+1] of them) and two noise sequences of length [n/2] whose
    entries are [U1'_i = (U1_{2i} + U1_{2i+1}) / sqrt 2] and
    [U2'_i = (sqrt 3 (U1_{2i} - U1_{2i+1}) + U2_{2i} + U2_{2i+1}) / (2 sqrt 2)];
    without [U2s] it returns the same times and the same [U1']. *)
Theorem double_increments_spec (n : nat) (times U1s U2s : list R) :
  Nat.Even n ->
  length times = S n -> length U1s = n -> length U2s = n ->
  exists new_times new_U1s new_U2s : list R,
    double_increments times U1s (Some U2s)
    = Ok (new_times, new_U1s, Some new_U2s)
    /\ double_increments times U1s None = Ok (new_times, new_U1s, None)
    /\ length new_times = S (n / 2)
    /\ length new_U1s = (n / 2)%nat
    /\ length new_U2s = (n / 2)%nat
    /\ (forall i : nat, (i <= n / 2)%nat ->
          nth i new_times 0 = nth (2 * i) times 0)
    /\ (forall i : nat, (i < n / 2)%nat ->
          nth i new_U1s 0
          = (nth (2 * i) U1s 0 + nth (2 * i + 1) U1s 0) / sqrt 2
          /\ nth i new_U2s 0
             = (sqrt 3 * (nth (2 * i) U1s 0 - nth (2 * i + 1) U1s 0)
                + nth (2 * i) U2s 0 + nth (2 * i + 1) U2s 0)
               / (2 * sqrt 2)).
Proof.
  intros [m Hm] Ht H1 H2. subst n.
  replace (2 * m / 2)%nat with m
    by (rewrite Nat.mul_comm; symmetry; apply Nat.div_mul; lia).
  destruct (double_increments_even m times U1s U2s H1 H2) as [E2 E1].
  exists (Np.slice_from 0 2 times), (coarsen_U1 U1s), (coarsen_U2 U1s U2s).
  repeat split.
  - exact E2.
  - exact E1.
  - rewrite length_slice_even, Ht.
    replace (S (2 * m) + 1)%nat with ((1 + m) * 2)%nat by lia.
    now rewrite Nat.div_mul by lia.
  - now apply length_coarsen_U1.
  - now apply length_coarsen_U2.
  - intros i _. rewrite nth_slice_from by lia. f_equal. lia.
  - now apply (nth_coarsen_U1 m).
  - now apply (nth_coarsen_U2 m).
Qed.

Lemma double_increments_spec_witness :
  exists new_times new_U1s new_U2s : list R,
    double_increments [0; 1; 2] [1; 2] (Some [3; 4])
    = Ok (new_times, new_U1s, Some new_U2s)
    /\ double_increments [0; 1; 2] [1; 2] None = Ok (new_times, new_U1s, None)
    /\ length new_times = S (2 / 2)
    /\ length new_U1s = (2 / 2)%nat
    /\ length new_U2s = (2 / 2)%nat
    /\ (forall i : nat, (i <= 2 / 2)%nat ->
          nth i new_times 0 = nth (2 * i) [0; 1; 2] 0)
    /\ (forall i : nat, (i < 2 / 2)%nat ->
          nth i new_U1s 0
          = (nth (2 * i) [1; 2] 0 + nth (2 * i + 1) [1; 2] 0) / sqrt 2
          /\ nth i new_U2s 0
             = (sqrt 3 * (nth (2 * i) [1; 2] 0 - nth (2 * i + 1) [1; 2] 0)
                + nth (2 * i) [3; 4] 0 + nth (2 * i + 1) [3; 4] 0)
               / (2 * sqrt 2)).
Proof.
  apply (double_increments_spec 2 [0; 1; 2] [1; 2] [3; 4]).
  - exists 1%nat. reflexivity.
  - reflexivity.
  - reflexivity.
  - reflexivity.
Defined.

(** C6, as the code has it.  On noise of odd length the trailing element is
    not dropped.  From length 5 on, the even-indexed and the odd-indexed
    halves differ in length and neither has one entry, so their sum is a
    [ValueError]; at length 3 the one odd-indexed entry is stretched over
    both even-indexed ones; only at length 1 is the result the (empty)
    coarsening of the pairs that remain. *)
Theorem double_increments_odd (times U1s : list R) (U2s : option (list R)) :
  Nat.Odd (length U1s) ->
  match U1s with
  | [_] =>
      double_increments times U1s None
      = Ok (Np.slice_from 0 2 times, [], None)
  | [a; b; c] =>
      double_increments times U1s None
      = Ok (Np.slice_from 0 2 times,
            [(a + b) / sqrt 2; (c + b) / sqrt 2], None)
  | _ => double_increments times U1s U2s = Raise ValueError
  end.
Proof.
  intros [k Hk].
  destruct U1s as [|a [|b [|c [|d [|e U1s]]]]]; simpl in Hk; try lia;
    try reflexivity.
  unfold double_increments, Np.add.
  rewrite broadcast_raises; [reflexivity | | | ].
  - rewrite length_slice_even, length_slice_odd.
    simpl length.
    replace (S (S (S (S (S (length U1s))))) + 1)%nat with (2 * (k + 1))%nat
      by lia.
    replace (S (S (S (S (S (length U1s))))))%nat with (1 + k * 2)%nat by lia.
    rewrite Nat.div_add by lia.
    rewrite (Nat.mul_comm 2), Nat.div_mul by lia. simpl. lia.
  - simpl. lia.
  - simpl. lia.
Qed.

Lemma double_increments_odd_witness :
  double_increments [0; 1; 2; 3; 4; 5] [1; 2; 3; 4; 5] (Some [1; 2; 3; 4; 5])
  = Raise ValueError.
Proof.
  apply (double_increments_odd [0; 1; 2; 3; 4; 5] [1; 2; 3; 4; 5]
           (Some [1; 2; 3; 4; 5])).
  exists 2%nat. reflexivity.
Defined.

(** C6 as stated fails: five fine intervals are not coarsened to the two
    pairs that remain once the trailing element is dropped; the call
    raises. *)
Lemma double_increments_odd_counterexample :
  double_increments [0; 1; 2; 3; 4; 5] [1; 2; 3; 4; 5] None
  = Raise ValueError
  /\ double_increments [0; 1; 2; 3; 4; 5] [1; 2; 3; 4; 5] None
     <> Ok (Np.slice_from 0 2 [0; 1; 2; 3; 4; 5],
            coarsen_U1 (removelast [1; 2; 3; 4; 5]), None).
Proof.
  assert (E : double_increments [0; 1; 2; 3; 4; 5] [1; 2; 3; 4; 5] None
              = Raise ValueError) by reflexivity.
  split; [exact E|]. rewrite E. discriminate.
Qed.

(** C7.  On a time sequence whose number of intervals is divisible by 4
    (with noise to match), two applications of [double_increments] succeed
    and the times they yield are the original ones at stride 4. *)
Theorem double_increments_twice_stride4 (m : nat) (times U1s U2s : list R) :
  length times = S (4 * m) -> length U1s = (4 * m)%nat ->
  length U2s = (4 * m)%nat ->
  exists times_2 U1s_2 U2s_2 times_4 U1s_4 U2s_4 : list R,
    double_increments times U1s (Some U2s)
    = Ok (times_2, U1s_2, Some U2s_2)
    /\ double_increments times_2 U1s_2 (Some U2s_2)
       = Ok (times_4, U1s_4, Some U2s_4)
    /\ times_4 = Np.slice_from 0 4 times
    /\ length times_4 = S m
    /\ forall i : nat, (i <= m)%nat -> nth i times_4 0 = nth (4 * i) times 0.
Proof.
  intros Ht H1 H2.
  assert (H1' : length U1s = (2 * (2 * m))%nat) by lia.
  assert (H2' : length U2s = (2 * (2 * m))%nat) by lia.
  destruct (double_increments_even (2 * m) times U1s U2s H1' H2') as [E _].
  pose proof (length_coarsen_U1 _ _ H1') as L1.
  pose proof (length_coarsen_U2 _ _ _ H1' H2') as L2.
  destruct (double_increments_even m (Np.slice_from 0 2 times) _ _ L1 L2)
    as [E' _].
  assert (S4 : Np.slice_from 0 2 (Np.slice_from 0 2 times)
               = Np.slice_from 0 4 times)
    by (rewrite slice_from_slice_from by lia; reflexivity).
  do 6 eexists. split; [exact E|]. split; [exact E'|].
  split; [exact S4|]. split.
  - rewrite !length_slice_even, Ht.
    replace (S (4 * m) + 1)%nat with (1 * 2 + (2 * m) * 2)%nat by lia.
    rewrite Nat.div_add by lia. simpl (1 * 2 / 2)%nat.
    replace (1 + 2 * m + 1)%nat with ((1 + m) * 2)%nat by lia.
    now rewrite Nat.div_mul by lia.
  - intros i _. rewrite S4, nth_slice_from by lia. f_equal. lia.
Qed.

Lemma double_increments_twice_stride4_witness :
  exists times_2 U1s_2 U2s_2 times_4 U1s_4 U2s_4 : list R,
    double_increments [0; 1; 2; 3; 4] [1; 2; 3; 4] (Some [5; 6; 7; 8])
    = Ok (times_2, U1s_2, Some U2s_2)
    /\ double_increments times_2 U1s_2 (Some U2s_2)
       = Ok (times_4, U1s_4, Some U2s_4)
    /\ times_4 = Np.slice_from 0 4 [0; 1; 2; 3; 4]
    /\ length times_4 = 2%nat
    /\ forall i : nat, (i <= 1)%nat ->
         nth i times_4 0 = nth (4 * i) [0; 1; 2; 3; 4] 0.
Proof.
  apply (double_increments_twice_stride4 1 [0; 1; 2; 3; 4] [1; 2; 3; 4]
           [5; 6; 7; 8]); reflexivity.
Defined.

(** ** Linear algebra *)

(** [lia] on lengths, whatever name the list type goes by. *)
Ltac vlia := unfold vector, matrix, Np.array in *; lia.

Lemma vec_shape_length (n : nat) (x : vector) :
  vec_shape n x = true -> length x = n.
Proof. apply Nat.eqb_eq. Qed.

Lemma mat_shape_length (n : nat) (A : matrix) :
  mat_shape n A = true -> length A = n.
Proof.
  unfold mat_shape. intros H. apply andb_prop in H. now apply Nat.eqb_eq.
Qed.

Lemma mat_shape_rows (n : nat) (A : matrix) :
  mat_shape n A = true -> Forall (fun row => length row = n) A.
Proof.
  unfold mat_shape. intros H. apply andb_prop in H. destruct H as [_ H].
  apply Forall_forall. intros row Hin.
  rewrite forallb_forall in H. now apply vec_shape_length, H.
Qed.

Lemma mat_shape_row (n : nat) (A : matrix) (i : nat) :
  mat_shape n A = true -> (i < n)%nat -> length (nth i A []) = n.
Proof.
  intros HA Hi. pose proof (mat_shape_rows n A HA) as Hrows.
  rewrite Forall_forall in Hrows. apply Hrows, nth_In.
  now rewrite (mat_shape_length n A HA).
Qed.

Lemma dot_nil_l (x : vector) : dot [] x = 0.
Proof. reflexivity. Qed.

Lemma dot_nil_r (x : vector) : dot x [] = 0.
Proof. destruct x; reflexivity. Qed.

Lemma dot_cons (a b : R) (x y : vector) :
  dot (a :: x) (b :: y) = a * b + dot x y.
Proof. reflexivity. Qed.

Lemma dot_vadd_r :
  forall k x y : vector,
    length x = length y -> dot k (vadd x y) = dot k x + dot k y.
Proof.
  induction k as [|c k IH]; intros x y H.
  - rewrite !dot_nil_l. ring.
  - destruct x as [|a x], y as [|b y]; try discriminate.
    + change (vadd [] []) with (@nil R). rewrite !dot_nil_r. ring.
    + change (vadd (a :: x) (b :: y)) with ((a + b) :: vadd x y).
      rewrite !dot_cons, IH by (simpl in H; lia). ring.
Qed.

Lemma dot_vscale_r (c : R) :
  forall k x : vector, dot k (vscale c x) = c * dot k x.
Proof.
  induction k as [|a k IH]; intros x.
  - rewrite !dot_nil_l. ring.
  - destruct x as [|b x].
    + simpl vscale. rewrite !dot_nil_r. ring.
    + change (vscale c (b :: x)) with ((c * b) :: vscale c x).
      rewrite !dot_cons, IH. ring.
Qed.

Lemma dot_vadd_l :
  forall r1 r2 x : vector,
    length r1 = length r2 -> dot (vadd r1 r2) x = dot r1 x + dot r2 x.
Proof.
  induction r1 as [|a r1 IH]; intros r2 x H.
  - destruct r2; [|discriminate]. simpl vadd. rewrite !dot_nil_l. ring.
  - destruct r2 as [|b r2]; [discriminate|].
    change (vadd (a :: r1) (b :: r2)) with ((a + b) :: vadd r1 r2).
    destruct x as [|c x].
    + rewrite !dot_nil_r. ring.
    + rewrite !dot_cons, IH by (simpl in H; lia). ring.
Qed.

Lemma dot_vscale_l (c : R) :
  forall r x : vector, dot (vscale c r) x = c * dot r x.
Proof.
  induction r as [|a r IH]; intros x.
  - simpl vscale. rewrite !dot_nil_l. ring.
  - change (vscale c (a :: r)) with ((c * a) :: vscale c r).
    destruct x as [|b x].
    + rewrite !dot_nil_r. ring.
    + rewrite !dot_cons, IH. ring.
Qed.

Lemma length_vadd (x y : vector) :
  length (vadd x y) = Nat.min (length x) (length y).
Proof. apply length_map2. Qed.

Lemma length_vscale (c : R) (x : vector) : length (vscale c x) = length x.
Proof. apply length_map. Qed.

Lemma length_vshift (x : vector) (c : R) : length (vshift x c) = length x.
Proof. apply length_map. Qed.

Lemma length_matvec (A : matrix) (x : vector) :
  length (matvec A x) = length A.
Proof. apply length_map. Qed.

Lemma length_madd (A B : matrix) :
  length (madd A B) = Nat.min (length A) (length B).
Proof. apply length_map2. Qed.

Lemma length_mscale (c : R) (A : matrix) : length (mscale c A) = length A.
Proof. apply length_map. Qed.

Lemma length_matmul (A B : matrix) : length (matmul A B) = length A.
Proof. apply length_map. Qed.

Lemma nth_vadd (x y : vector) (i : nat) :
  length x = length y -> nth i (vadd x y) 0 = nth i x 0 + nth i y 0.
Proof.
  intros H. destruct (Nat.lt_ge_cases i (length x)) as [Hi|Hi].
  - apply nth_map2; lia.
  - rewrite !nth_overflow; [ring | lia | lia |].
    rewrite length_vadd. lia.
Qed.

Lemma nth_vscale (c : R) (x : vector) (i : nat) :
  nth i (vscale c x) 0 = c * nth i x 0.
Proof.
  destruct (Nat.lt_ge_cases i (length x)) as [Hi|Hi].
  - now apply nth_map_lt.
  - rewrite !nth_overflow; [ring | lia |]. now rewrite length_vscale.
Qed.

Lemma nth_vshift (x : vector) (c : R) (i : nat) :
  (i < length x)%nat -> nth i (vshift x c) 0 = nth i x 0 + c.
Proof. intros Hi. now apply (nth_map_lt (fun v => v + c)). Qed.

Lemma nth_matvec (A : matrix) (x : vector) (i : nat) :
  nth i (matvec A x) 0 = dot (nth i A []) x.
Proof.
  exact (map_nth (fun row => dot row x) A [] i).
Qed.

Lemma nth_madd (A B : matrix) (i : nat) :
  length A = length B ->
  nth i (madd A B) [] = vadd (nth i A []) (nth i B []).
Proof.
  intros H. destruct (Nat.lt_ge_cases i (length A)) as [Hi|Hi].
  - apply nth_map2; vlia.
  - rewrite !nth_overflow; [reflexivity | vlia | vlia |].
    rewrite length_madd. vlia.
Qed.

Lemma nth_mscale (c : R) (A : matrix) (i : nat) :
  nth i (mscale c A) [] = vscale c (nth i A []).
Proof. exact (map_nth (vscale c) A [] i). Qed.

Lemma nth_matmul (A B : matrix) (i : nat) :
  nth i (matmul A B) [] = vecmat (nth i A []) B.
Proof. exact (map_nth (fun row => vecmat row B) A [] i). Qed.

(** [np.dot(k_T, A)] has one entry per column of [A]. *)
Lemma length_vecmat (m : nat) :
  forall (A : matrix) (k : vector),
    length k = length A -> A <> [] ->
    Forall (fun row => length row = m) A ->
    length (vecmat k A) = m.
Proof.
  induction A as [|row A IH]; intros k Hk Hne Hrows; [congruence|].
  destruct k as [|c k]; [discriminate|].
  inversion Hrows as [|? ? Hrow Hrows']; subst.
  simpl. destruct A as [|row' A].
  - now rewrite length_vscale.
  - rewrite length_vadd, length_vscale, IH; auto; try discriminate.
    lia.
Qed.

Lemma length_vecmat_square (n : nat) (A : matrix) (k : vector) :
  mat_shape n A = true -> length k = n -> (0 < n)%nat ->
  length (vecmat k A) = n.
Proof.
  intros HA Hk Hn. pose proof (mat_shape_length n A HA) as HAl.
  apply length_vecmat.
  - vlia.
  - intros ->. simpl in HAl. lia.
  - now apply mat_shape_rows.
Qed.

(** [(k^T A) x = k^T (A x)] *)
Lemma dot_vecmat (m : nat) (x : vector) :
  forall (A : matrix) (k : vector),
    length k = length A ->
    Forall (fun row => length row = m) A ->
    dot (vecmat k A) x = dot k (matvec A x).
Proof.
  induction A as [|row A IH]; intros k Hk Hrows.
  - destruct k; [reflexivity | discriminate].
  - destruct k as [|c k]; [discriminate|].
    inversion Hrows as [|? ? Hrow Hrows']; subst.
    change (matvec (row :: A) x) with (dot row x :: matvec A x).
    rewrite dot_cons. simpl vecmat. destruct A as [|row' A].
    + change (matvec [] x) with (@nil R).
      rewrite dot_vscale_l, dot_nil_r. ring.
    + rewrite dot_vadd_l, dot_vscale_l, IH; auto.
      rewrite length_vscale.
      symmetry. apply length_vecmat; auto; discriminate.
Qed.

(** [(A B) x = A (B x)] *)
Lemma matvec_matmul (n : nat) (A B : matrix) (x : vector) :
  mat_shape n A = true -> mat_shape n B = true ->
  matvec (matmul A B) x = matvec A (matvec B x).
Proof.
  intros HA HB. unfold matmul, matvec. rewrite map_map.
  apply map_ext_in. intros row Hin.
  apply (dot_vecmat n).
  - pose proof (mat_shape_rows n A HA) as Hrows.
    rewrite Forall_forall in Hrows.
    rewrite (Hrows row Hin). symmetry. now apply mat_shape_length.
  - now apply mat_shape_rows.
Qed.

Lemma matvec_vadd (A : matrix) (x y : vector) :
  length x = length y ->
  matvec A (vadd x y) = vadd (matvec A x) (matvec A y).
Proof.
  intros H. induction A as [|row A IH]; [reflexivity|].
  simpl. rewrite dot_vadd_r, IH by assumption. reflexivity.
Qed.

Lemma matvec_vscale (c : R) (A : matrix) (x : vector) :
  matvec A (vscale c x) = vscale c (matvec A x).
Proof.
  induction A as [|row A IH]; [reflexivity|].
  simpl. rewrite dot_vscale_r, IH. reflexivity.
Qed.

(** ** Derivatives of expressions in one real variable *)

Lemma dl_ext (f g : R -> R) (x l : R) :
  (forall t : R, f t = g t) ->
  derivable_pt_lim g x l -> derivable_pt_lim f x l.
Proof.
  intros E Hg eps Heps. destruct (Hg eps Heps) as [delta Hd].
  exists delta. intros h Hh Hlt. rewrite !E. now apply Hd.
Qed.

Lemma dl_eq (f : R -> R) (x l l' : R) :
  derivable_pt_lim f x l -> l = l' -> derivable_pt_lim f x l'.
Proof. intros H E. now rewrite <- E. Qed.

Lemma dl_const (c x : R) : derivable_pt_lim (fun _ => c) x 0.
Proof. apply derivable_pt_lim_const. Qed.

Lemma dl_id (x : R) : derivable_pt_lim (fun t => t) x 1.
Proof. apply derivable_pt_lim_id. Qed.

Lemma dl_plus (f g : R -> R) (x l1 l2 : R) :
  derivable_pt_lim f x l1 -> derivable_pt_lim g x l2 ->
  derivable_pt_lim (fun t => f t + g t) x (l1 + l2).
Proof. apply derivable_pt_lim_plus. Qed.

Lemma dl_mult (f g : R -> R) (x l1 l2 : R) :
  derivable_pt_lim f x l1 -> derivable_pt_lim g x l2 ->
  derivable_pt_lim (fun t => f t * g t) x (l1 * g x + f x * l2).
Proof. apply derivable_pt_lim_mult. Qed.

(** [dl_ext] leaves a goal [f t = ?g t]: [hold_rhs] keeps the unknown [?g]
    out of the way of rewriting ([held]), and [as_function_of t] closes the
    goal by reading the rewritten left-hand side as a function of [t]. *)
Ltac hold_rhs :=
  lazymatch goal with
  | |- _ = ?g ?t => change (g t) with (held g t)
  end.

Ltac as_function_of t :=
  lazymatch goal with
  | |- ?e = held ?g t =>
      let f := eval pattern t in e in
      lazymatch f with
      | ?f' t => unify g f'; reflexivity
      end
  end.

(** The derivative of a sum of products of constants and the variable. *)
Ltac dl_solve :=
  repeat first [ apply dl_const | apply dl_id | eapply dl_plus | eapply dl_mult ].

(** ** The diffusion field and its derivatives *)

Lemma length_b_field (n : nat) (G : matrix) (k x : vector) :
  mat_shape n G = true -> length x = n -> length (b_field G k x) = n.
Proof.
  intros HG Hx. unfold b_field.
  rewrite length_vadd, length_vscale, length_matvec,
    (mat_shape_length n G HG). vlia.
Qed.

(** The derivative of [b] at [x] along any [v] is
    [(k^T v) x + (k^T x) v + G v]. *)
Lemma b_field_dir_deriv (n : nat) (G : matrix) (k x v : vector) :
  mat_shape n G = true -> length x = n -> length v = n ->
  dir_deriv (b_field G k) x v
    (vadd (vadd (vscale (dot k v) x) (vscale (dot k x) v)) (matvec G v)).
Proof.
  intros HG Hx Hv. split.
  - rewrite !length_vadd, !length_vscale, length_matvec,
      (mat_shape_length n G HG). vlia.
  - intros i Hi.
    assert (Hl : forall t, length x = length (vscale t v))
      by (intros t; rewrite length_vscale; vlia).
    eapply dl_ext.
    { intros t. hold_rhs. unfold b_field.
      rewrite nth_vadd
        by (rewrite length_vscale, length_matvec, length_vadd, <- Hl,
              (mat_shape_length n G HG); vlia).
      rewrite nth_vscale, nth_matvec, nth_vadd, nth_vscale by apply Hl.
      rewrite !dot_vadd_r, !dot_vscale_r by apply Hl.
      as_function_of t. }
    eapply dl_eq; [dl_solve|].
    rewrite !nth_vadd, !nth_vscale, nth_matvec;
      rewrite ?length_vadd, ?length_vscale, ?length_matvec,
        ?(mat_shape_length n G HG); try vlia.
    ring.
Qed.

Lemma dir_deriv_eq (f : vector -> vector) (x v L L' : vector) :
  dir_deriv f x v L -> L = L' -> dir_deriv f x v L'.
Proof. intros H E. now rewrite <- E. Qed.

(** A field has one directional derivative at most. *)
Lemma dir_deriv_unique (f : vector -> vector) (x v L L' : vector) :
  dir_deriv f x v L -> dir_deriv f x v L' -> L = L'.
Proof.
  intros [Hl H] [Hl' H'].
  apply (nth_ext L L' 0 0); [congruence|].
  intros i Hi. rewrite Hl in Hi.
  exact (uniqueness_limite _ _ _ _ (H i Hi) (H' i Hi)).
Qed.

(** [b_grad_b_field] is [(b.grad) b]: at every [x] it is the derivative of
    [b] along [b x]. *)
Lemma b_grad_b_field_dir_deriv (n : nat) (G : matrix) (k x : vector) :
  mat_shape n G = true -> length x = n ->
  dir_deriv (b_field G k) x (b_field G k x) (b_grad_b_field G k x).
Proof.
  intros HG Hx. apply (b_field_dir_deriv n); auto using length_b_field.
Qed.

(** Rewriting to entries: the shape side conditions. *)
Create Rewrite HintDb shape.
#[local] Hint Rewrite length_vadd length_vscale length_vshift length_matvec
  length_madd length_mscale length_matmul : shape.

Ltac shape_solve := autorewrite with shape; vlia.

(** Rewriting to entries: [nth] through the vector operations, and [dot]
    and [matvec] through sums and multiples. *)
Ltac to_entries :=
  repeat first
    [ rewrite nth_vscale
    | rewrite nth_matvec
    | rewrite nth_mscale
    | rewrite nth_matmul
    | rewrite dot_vscale_r
    | rewrite dot_vscale_l
    | rewrite matvec_vscale
    | rewrite nth_vadd by shape_solve
    | rewrite nth_madd by shape_solve
    | rewrite dot_vadd_r by shape_solve
    | rewrite matvec_vadd by shape_solve ].

(** [(b.grad) b] in closed form. *)
Lemma b_grad_b_field_closed (n : nat) (G : matrix) (k x : vector) :
  mat_shape n G = true -> length x = n ->
  b_grad_b_field G k x = b_dx_b_closed G k x.
Proof.
  intros HG Hx. pose proof (mat_shape_length n G HG) as HGl.
  unfold b_grad_b_field, b_dx_b_closed, b_field.
  apply (nth_ext _ _ 0 0); [shape_solve|].
  intros i _. to_entries. simpl pow. ring.
Qed.

(** The code, on the products that [__init__] precomputes, is the closed
    form. *)
Lemma b_dx_b_closed_form (n : nat) (G : matrix) (k rho : vector) :
  mat_shape n G = true -> length k = n -> length rho = n ->
  b_dx_b (matmul G G) (vecmat k G) G k rho = b_dx_b_closed G k rho.
Proof.
  intros HG Hk Hrho. pose proof (mat_shape_length n G HG) as HGl.
  pose proof (mat_shape_rows n G HG) as HGr.
  unfold b_dx_b, b_dx_b_closed. cbv zeta.
  apply (nth_ext _ _ 0 0); [shape_solve|].
  intros i Hi.
  assert (Hin : (i < n)%nat) by (revert Hi; shape_solve).
  to_entries.
  rewrite dot_vadd_l
    by (rewrite length_vscale, (length_vecmat_square n), (mat_shape_row n G i);
        auto using mat_shape_row; vlia).
  to_entries.
  rewrite !(dot_vecmat n) by (rewrite ?(mat_shape_row n G i); auto; vlia).
  ring.
Qed.

(** C5.  On the products [G^2] and [k^T G] that the constructors
    precompute, [b_dx_b] returns
    [((k^T G rho) + 2 (k^T rho)^2) rho + G^2 rho + 2 (k^T rho) G rho], and
    this is the directional derivative at [rho], along [b(rho)], of the
    diffusion field [b(rho) = (k^T rho) rho + G rho]. *)
Theorem b_dx_b_exact (n : nat) (G : matrix) (k rho : vector) :
  mat_shape n G = true -> vec_shape n k = true -> vec_shape n rho = true ->
  b_dx_b (matmul G G) (vecmat k G) G k rho = b_dx_b_closed G k rho
  /\ dir_deriv (b_field G k) rho (b_field G k rho)
       (b_dx_b (matmul G G) (vecmat k G) G k rho).
Proof.
  intros HG Hk Hrho.
  apply vec_shape_length in Hk, Hrho.
  rewrite (b_dx_b_closed_form n) by assumption.
  split; [reflexivity|].
  apply (dir_deriv_eq _ _ _ (b_grad_b_field G k rho)).
  - now apply (b_grad_b_field_dir_deriv n).
  - now apply (b_grad_b_field_closed n).
Qed.

Lemma b_dx_b_exact_witness :
  b_dx_b (matmul [[1; 2]; [3; 4]] [[1; 2]; [3; 4]])
         (vecmat [1; 1] [[1; 2]; [3; 4]]) [[1; 2]; [3; 4]] [1; 1] [1; 2]
  = b_dx_b_closed [[1; 2]; [3; 4]] [1; 1] [1; 2]
  /\ dir_deriv (b_field [[1; 2]; [3; 4]] [1; 1]) [1; 2]
       (b_field [[1; 2]; [3; 4]] [1; 1] [1; 2])
       (b_dx_b (matmul [[1; 2]; [3; 4]] [[1; 2]; [3; 4]])
               (vecmat [1; 1] [[1; 2]; [3; 4]]) [[1; 2]; [3; 4]] [1; 1]
               [1; 2]).
Proof.
  apply (b_dx_b_exact 2 [[1; 2]; [3; 4]] [1; 1] [1; 2]); reflexivity.
Defined.

(** The derivative of [b] along the drift [a(rho) = Q rho] is
    [G Q rho + (k^T rho) Q rho + (k^T Q rho) rho]. *)
Lemma a_dx_b_closed_dir_deriv (n : nat) (G Q : matrix) (k rho : vector) :
  mat_shape n G = true -> mat_shape n Q = true -> length rho = n ->
  dir_deriv (b_field G k) rho (a_field Q rho) (a_dx_b_closed G Q k rho).
Proof.
  intros HG HQ Hrho.
  pose proof (mat_shape_length n G HG) as HGl.
  pose proof (mat_shape_length n Q HQ) as HQl.
  eapply dir_deriv_eq.
  - apply (b_field_dir_deriv n); auto.
    unfold a_field. now rewrite length_matvec.
  - unfold a_dx_b_closed, a_field.
    apply (nth_ext _ _ 0 0); [shape_solve|].
    intros i _. to_entries. ring.
Qed.

(** The derivative of [(b.grad) b] along [b] is the closed form of
    [(b.grad)^2 b]. *)
Lemma b_dx_b_dx_b_closed_dir_deriv (n : nat) (G : matrix) (k rho : vector) :
  mat_shape n G = true -> length rho = n ->
  dir_deriv (b_grad_b_field G k) rho (b_field G k rho)
    (b_dx_b_dx_b_closed G k rho).
Proof.
  intros HG Hrho. pose proof (mat_shape_length n G HG) as HGl.
  pose proof (length_b_field n G k rho HG Hrho) as Hb.
  split.
  - unfold b_dx_b_dx_b_closed. shape_solve.
  - intros i Hi.
    eapply dl_ext.
    { intros t. hold_rhs.
      rewrite (b_grad_b_field_closed n) by (auto; shape_solve).
      unfold b_dx_b_closed. cbv zeta. to_entries. simpl pow.
      as_function_of t. }
    eapply dl_eq; [dl_solve|].
    unfold b_dx_b_dx_b_closed, b_field. cbv zeta. to_entries.
    simpl pow. ring.
Qed.

(** C3, on the code.  With [G] the identity, [k^T = (1, 0)] and
    [rho = (2, 3)], the products precomputed as [__init__] does,
    [b_dx_b_dx_b] returns [(198, 297)].  The closed form of [(b.grad)^2 b]
    is [(222, 333)] there; it is the derivative of [(b.grad) b] along [b],
    and the value returned is not: the coefficient of [G rho] in the code
    is [3 ((k^T G rho) + 2 (k^T rho))], where the derivative has
    [3 ((k^T G rho) + 2 (k^T rho)^2)]. *)
Theorem b_dx_b_dx_b_failing_input :
  let G := [[1; 0]; [0; 1]] in
  let k := [1; 0] in
  let rho := [2; 3] in
  let G2 := matmul G G in
  let G3 := matmul G2 G in
  b_dx_b_dx_b G3 G2 G k (vecmat k G) (vecmat k G2) rho = [198; 297]
  /\ b_dx_b_dx_b_closed G k rho = [222; 333]
  /\ dir_deriv (b_grad_b_field G k) rho (b_field G k rho) [222; 333]
  /\ ~ dir_deriv (b_grad_b_field G k) rho (b_field G k rho) [198; 297].
Proof.
  cbv zeta.
  assert (Hclosed : b_dx_b_dx_b_closed [[1; 0]; [0; 1]] [1; 0] [2; 3]
                    = [222; 333]).
  { unfold b_dx_b_dx_b_closed, matvec, vadd, vscale, dot; simpl.
    repeat (f_equal; try ring). }
  assert (Hderiv : dir_deriv (b_grad_b_field [[1; 0]; [0; 1]] [1; 0]) [2; 3]
                     (b_field [[1; 0]; [0; 1]] [1; 0] [2; 3]) [222; 333]).
  { rewrite <- Hclosed. now apply (b_dx_b_dx_b_closed_dir_deriv 2). }
  split; [|split; [|split]].
  - unfold b_dx_b_dx_b, matmul, madd, mscale, matvec, vecmat, vadd, vscale,
      dot; simpl.
    repeat (f_equal; try ring).
  - exact Hclosed.
  - exact Hderiv.
  - intros Hcode.
    pose proof (dir_deriv_unique _ _ _ _ _ Hderiv Hcode) as E.
    injection E as E1 E2. lra.
Qed.

(** C4, on the code.  With [G] and [Q] the identity, [k^T = (1, 0)] and
    [rho = (2, 3)], [a_dx_b] returns [(8, 11)]: the one-entry array
    [k^T Q rho = 2] is added to every component.  The closed form
    [G Q rho + (k^T rho) Q rho + (k^T Q rho) rho] is [(10, 15)] there; it is
    the derivative of [b] along the drift, and the value returned is not. *)
Theorem a_dx_b_failing_input :
  let G := [[1; 0]; [0; 1]] in
  let Q := [[1; 0]; [0; 1]] in
  let k := [1; 0] in
  let rho := [2; 3] in
  a_dx_b (matmul G Q) k Q (vecmat k Q) rho = [8; 11]
  /\ a_dx_b_closed G Q k rho = [10; 15]
  /\ dir_deriv (b_field G k) rho (a_field Q rho) [10; 15]
  /\ ~ dir_deriv (b_field G k) rho (a_field Q rho) [8; 11].
Proof.
  cbv zeta.
  assert (Hclosed : a_dx_b_closed [[1; 0]; [0; 1]] [[1; 0]; [0; 1]] [1; 0]
                      [2; 3] = [10; 15]).
  { unfold a_dx_b_closed, matvec, vadd, vscale, dot; simpl.
    repeat (f_equal; try ring). }
  assert (Hderiv : dir_deriv (b_field [[1; 0]; [0; 1]] [1; 0]) [2; 3]
                     (a_field [[1; 0]; [0; 1]] [2; 3]) [10; 15]).
  { rewrite <- Hclosed. now apply (a_dx_b_closed_dir_deriv 2). }
  split; [|split; [|split]].
  - unfold a_dx_b, matmul, madd, mscale, matvec, vecmat, vshift, vadd,
      vscale, dot; simpl.
    repeat (f_equal; try ring).
  - exact Hclosed.
  - exact Hderiv.
  - intros Hcode.
    pose proof (dir_deriv_unique _ _ _ _ _ Hderiv Hcode) as E.
    injection E as E1 E2. lra.
Qed.

(** ** The convergence rate *)

Lemma last_entry_app {A : Type} (pre : list A) (x : A) :
  Np.last_entry (pre ++ [x]) = Ok x.
Proof.
  induction pre as [|y pre IH]; [reflexivity|].
  simpl. destruct (pre ++ [x]) eqn:E; [|exact IH].
  destruct pre; discriminate.
Qed.

Lemma l1_norm_sub :
  forall x y : vector, l1_norm (Np.map2 Rminus x y) = l1_dist x y.
Proof.
  unfold l1_norm, l1_dist, Np.abs.
  induction x as [|a x IH]; intros [|b y]; simpl; try reflexivity.
  now rewrite IH.
Qed.

Lemma l1_dist_nonneg : forall x y : vector, 0 <= l1_dist x y.
Proof.
  unfold l1_dist.
  induction x as [|a x IH]; intros [|b y]; simpl; try lra.
  pose proof (Rabs_pos (a - b)). pose proof (IH y). lra.
Qed.

Lemma l1_dist_same : forall x : vector, l1_dist x x = 0.
Proof.
  unfold l1_dist. induction x as [|a x IH]; simpl; [reflexivity|].
  rewrite IH. unfold Rminus. rewrite Rplus_opp_r, Rabs_R0. ring.
Qed.

Lemma np_log_pos (x : R) : 0 < x -> np_log x = Fin (ln x).
Proof.
  intros H. unfold np_log. destruct (Rlt_dec 0 x); [reflexivity | contradiction].
Qed.

Lemma np_log_zero : np_log 0 = NInf.
Proof.
  unfold np_log. destruct (Rlt_dec 0 0); [lra|].
  destruct (Req_dec_T 0 0); [reflexivity | contradiction].
Qed.

(** The norm of a difference is never negative, so [np.log] is [nan] on
    none of the two norms. *)
Lemma np_log_l1_dist (x y : vector) :
  np_log (l1_dist x y) = NInf \/ np_log (l1_dist x y) = Fin (ln (l1_dist x y)).
Proof.
  destruct (l1_dist_nonneg x y) as [H|H].
  - right. now apply np_log_pos.
  - left. rewrite <- H. apply np_log_zero.
Qed.

Lemma calc_rate_coarsenings (times U1s U2s : list R) (m : nat) :
  length U1s = (4 * m)%nat -> length U2s = (4 * m)%nat ->
  double_increments times U1s (Some U2s)
  = Ok (Np.slice_from 0 2 times, coarsen_U1 U1s, Some (coarsen_U2 U1s U2s))
  /\ double_increments (Np.slice_from 0 2 times) (coarsen_U1 U1s)
       (Some (coarsen_U2 U1s U2s))
     = Ok (Np.slice_from 0 4 times, coarsen_U1 (coarsen_U1 U1s),
           Some (coarsen_U2 (coarsen_U1 U1s) (coarsen_U2 U1s U2s))).
Proof.
  intros HU1 HU2.
  assert (H1 : length U1s = (2 * (2 * m))%nat) by lia.
  assert (H2 : length U2s = (2 * (2 * m))%nat) by lia.
  split.
  - apply (double_increments_even (2 * m)); assumption.
  - replace (Np.slice_from 0 4 times)
      with (Np.slice_from 0 2 (Np.slice_from 0 2 times))
      by (rewrite slice_from_slice_from by lia; reflexivity).
    apply (double_increments_even m).
    + now apply length_coarsen_U1.
    + now apply length_coarsen_U2.
Qed.

Section Rate.
Context {Self State0 : Type} `{Integrator Self State0}.
Variables (integrator : Self) (rho_0 : State0).
Variables (times U1s U2s : list R) (m : nat).
Hypothesis HU1 : length U1s = (4 * m)%nat.
Hypothesis HU2 : length U2s = (4 * m)%nat.

(** The three runs of the integrator: on the grid as given, on every other
    point of it, on every fourth point, each with the noise coarsened to its
    grid, one after the other on the generator. *)
Variables (g g1 g2 g3 : rng) (rhos rhos_2 rhos_4 : trajectory).
Hypothesis Hrun :
  integrate integrator rho_0 times (Some U1s) (Some U2s) g = Ok (rhos, g1).
Hypothesis Hrun_2 :
  integrate integrator rho_0 (Np.slice_from 0 2 times)
    (Some (coarsen_U1 U1s)) (Some (coarsen_U2 U1s U2s)) g1
  = Ok (rhos_2, g2).
Hypothesis Hrun_4 :
  integrate integrator rho_0 (Np.slice_from 0 4 times)
    (Some (coarsen_U1 (coarsen_U1 U1s)))
    (Some (coarsen_U2 (coarsen_U1 U1s) (coarsen_U2 U1s U2s))) g2
  = Ok (rhos_4, g3).

(** Their final states, of one dimension. *)
Variables (pre pre_2 pre_4 : trajectory) (rho_T rho_2_T rho_4_T : vector).
Hypothesis Hlast : rhos = pre ++ [rho_T].
Hypothesis Hlast_2 : rhos_2 = pre_2 ++ [rho_2_T].
Hypothesis Hlast_4 : rhos_4 = pre_4 ++ [rho_4_T].
Hypothesis Hdim_2 : length rho_2_T = length rho_T.
Hypothesis Hdim_4 : length rho_4_T = length rho_T.

Lemma calc_rate_run :
  calc_rate integrator rho_0 times (Some U1s) (Some U2s) g
  = Ok (xdiv_pos (xsub (np_log (l1_dist rho_4_T rho_2_T))
                       (np_log (l1_dist rho_2_T rho_T)))
                 (ln 2), g3).
Proof.
  destruct (calc_rate_coarsenings times U1s U2s m HU1 HU2) as [E2 E4].
  unfold calc_rate, bind, or_randn, ret, lift. unfold Np.array in *.
  rewrite E2. simpl rbind. cbv iota beta.
  rewrite E4. simpl rbind. cbv iota beta.
  rewrite Hrun, Hrun_2, Hrun_4, Hlast, Hlast_2, Hlast_4.
  rewrite !last_entry_app.
  unfold Np.sub. rewrite !broadcast_same_shape by congruence.
  now rewrite !l1_norm_sub.
Qed.

End Rate.

(** C2.  On a grid of [4 m] intervals with noise supplied, [calc_rate]
    coarsens grid and noise twice with [double_increments] (to every other
    and to every fourth time point, the noise by adjacent pairs), runs the
    integrator on the three grids from the same initial state, and returns
    [(log |rho_4(T) - rho_2(T)|_1 - log |rho_2(T) - rho(T)|_1) / log 2] on
    the final states, [|.|_1] the entrywise absolute-value sum; where both
    norms are positive this is the real number of that formula. *)
Theorem calc_rate_formula {Self State0 : Type} `{Integrator Self State0}
    (integrator : Self) (rho_0 : State0) (times U1s U2s : list R) (m : nat)
    (g g1 g2 g3 : rng) (rhos rhos_2 rhos_4 pre pre_2 pre_4 : trajectory)
    (rho_T rho_2_T rho_4_T : vector) :
  length times = S (4 * m) ->
  length U1s = (4 * m)%nat ->
  length U2s = (4 * m)%nat ->
  integrate integrator rho_0 times (Some U1s) (Some U2s) g = Ok (rhos, g1) ->
  integrate integrator rho_0 (Np.slice_from 0 2 times)
    (Some (coarsen_U1 U1s)) (Some (coarsen_U2 U1s U2s)) g1
  = Ok (rhos_2, g2) ->
  integrate integrator rho_0 (Np.slice_from 0 4 times)
    (Some (coarsen_U1 (coarsen_U1 U1s)))
    (Some (coarsen_U2 (coarsen_U1 U1s) (coarsen_U2 U1s U2s))) g2
  = Ok (rhos_4, g3) ->
  rhos = pre ++ [rho_T] ->
  rhos_2 = pre_2 ++ [rho_2_T] ->
  rhos_4 = pre_4 ++ [rho_4_T] ->
  length rho_2_T = length rho_T ->
  length rho_4_T = length rho_T ->
  double_increments times U1s (Some U2s)
  = Ok (Np.slice_from 0 2 times, coarsen_U1 U1s, Some (coarsen_U2 U1s U2s))
  /\ double_increments (Np.slice_from 0 2 times) (coarsen_U1 U1s)
       (Some (coarsen_U2 U1s U2s))
     = Ok (Np.slice_from 0 4 times, coarsen_U1 (coarsen_U1 U1s),
           Some (coarsen_U2 (coarsen_U1 U1s) (coarsen_U2 U1s U2s)))
  /\ calc_rate integrator rho_0 times (Some U1s) (Some U2s) g
     = Ok (xdiv_pos (xsub (np_log (l1_dist rho_4_T rho_2_T))
                          (np_log (l1_dist rho_2_T rho_T)))
                    (ln 2), g3)
  /\ (0 < l1_dist rho_4_T rho_2_T -> 0 < l1_dist rho_2_T rho_T ->
      calc_rate integrator rho_0 times (Some U1s) (Some U2s) g
      = Ok (Fin ((ln (l1_dist rho_4_T rho_2_T) - ln (l1_dist rho_2_T rho_T))
                 / ln 2), g3)).
Proof.
  intros _ HU1 HU2 Hrun Hrun_2 Hrun_4 Hlast Hlast_2 Hlast_4 Hdim_2 Hdim_4.
  pose proof (calc_rate_run integrator rho_0 times U1s U2s m HU1 HU2
                g g1 g2 g3 rhos rhos_2 rhos_4 Hrun Hrun_2 Hrun_4
                pre pre_2 pre_4 rho_T rho_2_T rho_4_T
                Hlast Hlast_2 Hlast_4 Hdim_2 Hdim_4) as Hrate.
  destruct (calc_rate_coarsenings times U1s U2s m HU1 HU2) as [E2 E4].
  split; [exact E2|]. split; [exact E4|]. split; [exact Hrate|].
  intros H42 H21. rewrite Hrate, !np_log_pos by assumption. reflexivity.
Qed.

Lemma calc_rate_formula_witness :
  calc_rate {| lam := 1 |} [1] [0; 1; 2; 3; 4]
    (Some [1; 2; 3; 4]) (Some [5; 6; 7; 8]) rng0
  = Ok (Fin ((ln 4 - ln 7) / ln 2), rng0).
Proof.
  pose (rhos := [1] :: euler_steps 1 [1] 0 [1; 2; 3; 4]).
  pose (rhos_2 := [1] :: euler_steps 1 [1] 0 [2; 4]).
  pose (rhos_4 := [1] :: euler_steps 1 [1] 0 [4]).
  destruct (calc_rate_formula {| lam := 1 |} [1] [0; 1; 2; 3; 4]
              [1; 2; 3; 4] [5; 6; 7; 8] 1 rng0 rng0 rng0 rng0
              rhos rhos_2 rhos_4
              (firstn 4 rhos) (firstn 2 rhos_2) (firstn 1 rhos_4)
              (nth 4 rhos []) (nth 2 rhos_2 []) (nth 1 rhos_4 [])
              eq_refl eq_refl eq_refl eq_refl eq_refl eq_refl
              eq_refl eq_refl eq_refl eq_refl eq_refl)
    as (_ & _ & _ & Hrate).
  assert (H42 : l1_dist (nth 1 rhos_4 []) (nth 2 rhos_2 []) = 4).
  { unfold l1_dist. simpl. rewrite Rabs_left; lra. }
  assert (H21 : l1_dist (nth 2 rhos_2 []) (nth 4 rhos []) = 7).
  { unfold l1_dist. simpl. rewrite Rabs_left; lra. }
  rewrite H42, H21 in Hrate. apply Hrate; lra.
Defined.

(** C8, as the code has it.  Nothing in [calc_rate] looks at the norms
    before their logarithms are taken: when a norm is zero the runs still
    yield a value and no error is raised.  The value is [nan] when both
    differences of final states vanish, [-inf] when only the coarser one
    does, [+inf] when only the finer one does. *)
Theorem calc_rate_degenerate {Self State0 : Type} `{Integrator Self State0}
    (integrator : Self) (rho_0 : State0) (times U1s U2s : list R) (m : nat)
    (g g1 g2 g3 : rng) (rhos rhos_2 rhos_4 pre pre_2 pre_4 : trajectory)
    (rho_T rho_2_T rho_4_T : vector) :
  length times = S (4 * m) ->
  length U1s = (4 * m)%nat ->
  length U2s = (4 * m)%nat ->
  integrate integrator rho_0 times (Some U1s) (Some U2s) g = Ok (rhos, g1) ->
  integrate integrator rho_0 (Np.slice_from 0 2 times)
    (Some (coarsen_U1 U1s)) (Some (coarsen_U2 U1s U2s)) g1
  = Ok (rhos_2, g2) ->
  integrate integrator rho_0 (Np.slice_from 0 4 times)
    (Some (coarsen_U1 (coarsen_U1 U1s)))
    (Some (coarsen_U2 (coarsen_U1 U1s) (coarsen_U2 U1s U2s))) g2
  = Ok (rhos_4, g3) ->
  rhos = pre ++ [rho_T] ->
  rhos_2 = pre_2 ++ [rho_2_T] ->
  rhos_4 = pre_4 ++ [rho_4_T] ->
  length rho_2_T = length rho_T ->
  length rho_4_T = length rho_T ->
  (l1_dist rho_4_T rho_2_T = 0 -> l1_dist rho_2_T rho_T = 0 ->
   calc_rate integrator rho_0 times (Some U1s) (Some U2s) g = Ok (NaN, g3))
  /\ (l1_dist rho_4_T rho_2_T = 0 -> 0 < l1_dist rho_2_T rho_T ->
      calc_rate integrator rho_0 times (Some U1s) (Some U2s) g
      = Ok (NInf, g3))
  /\ (0 < l1_dist rho_4_T rho_2_T -> l1_dist rho_2_T rho_T = 0 ->
      calc_rate integrator rho_0 times (Some U1s) (Some U2s) g
      = Ok (PInf, g3)).
Proof.
  intros _ HU1 HU2 Hrun Hrun_2 Hrun_4 Hlast Hlast_2 Hlast_4 Hdim_2 Hdim_4.
  pose proof (calc_rate_run integrator rho_0 times U1s U2s m HU1 HU2
                g g1 g2 g3 rhos rhos_2 rhos_4 Hrun Hrun_2 Hrun_4
                pre pre_2 pre_4 rho_T rho_2_T rho_4_T
                Hlast Hlast_2 Hlast_4 Hdim_2 Hdim_4) as Hrate.
  rewrite Hrate. repeat split; intros H42 H21.
  - now rewrite H42, H21, np_log_zero.
  - now rewrite H42, np_log_zero, np_log_pos.
  - now rewrite H21, np_log_zero, np_log_pos.
Qed.

Lemma calc_rate_degenerate_witness :
  calc_rate {| lam := 0 |} [1] [0; 1; 2; 3; 4]
    (Some [1; 2; 3; 4]) (Some [5; 6; 7; 8]) rng0
  = Ok (NaN, rng0).
Proof.
  pose (rhos := [1] :: euler_steps 0 [1] 0 [1; 2; 3; 4]).
  pose (rhos_2 := [1] :: euler_steps 0 [1] 0 [2; 4]).
  pose (rhos_4 := [1] :: euler_steps 0 [1] 0 [4]).
  destruct (calc_rate_degenerate {| lam := 0 |} [1] [0; 1; 2; 3; 4]
              [1; 2; 3; 4] [5; 6; 7; 8] 1 rng0 rng0 rng0 rng0
              rhos rhos_2 rhos_4
              (firstn 4 rhos) (firstn 2 rhos_2) (firstn 1 rhos_4)
              (nth 4 rhos []) (nth 2 rhos_2 []) (nth 1 rhos_4 [])
              eq_refl eq_refl eq_refl eq_refl eq_refl eq_refl
              eq_refl eq_refl eq_refl eq_refl eq_refl)
    as (Hnan & _).
  apply Hnan.
  - unfold l1_dist. simpl.
    replace (1 + 0 * (4 - 0) * 1
             - (1 + 0 * (2 - 0) * 1
                + 0 * (4 - 2) * (1 + 0 * (2 - 0) * 1))) with 0 by ring.
    rewrite Rabs_R0. ring.
  - unfold l1_dist. simpl.
    match goal with |- Rabs ?e + 0 = 0 => replace e with 0 by ring end.
    rewrite Rabs_R0. ring.
Defined.

(** C8 as stated fails: with a state that never moves (no drift, no
    diffusion) the final states of the three runs coincide, and [calc_rate]
    returns [nan]; it raises nothing. *)
Lemma calc_rate_degenerate_counterexample :
  calc_rate {| lam := 0 |} [7] [0; 1; 2; 3; 4]
    (Some [1; 2; 3; 4]) (Some [5; 6; 7; 8]) rng0
  = Ok (NaN, rng0)
  /\ forall e : pyerror,
       calc_rate {| lam := 0 |} [7] [0; 1; 2; 3; 4]
         (Some [1; 2; 3; 4]) (Some [5; 6; 7; 8]) rng0
       <> Raise e.
Proof.
  pose (rhos := [7] :: euler_steps 0 [7] 0 [1; 2; 3; 4]).
  pose (rhos_2 := [7] :: euler_steps 0 [7] 0 [2; 4]).
  pose (rhos_4 := [7] :: euler_steps 0 [7] 0 [4]).
  pose proof (calc_rate_run {| lam := 0 |} [7] [0; 1; 2; 3; 4]
                [1; 2; 3; 4] [5; 6; 7; 8] 1 eq_refl eq_refl
                rng0 rng0 rng0 rng0 rhos rhos_2 rhos_4
                eq_refl eq_refl eq_refl
                (firstn 4 rhos) (firstn 2 rhos_2) (firstn 1 rhos_4)
                (nth 4 rhos []) (nth 2 rhos_2 []) (nth 1 rhos_4 [])
                eq_refl eq_refl eq_refl eq_refl eq_refl) as Hrate.
  assert (H42 : l1_dist (nth 1 rhos_4 []) (nth 2 rhos_2 []) = 0).
  { unfold l1_dist. simpl.
    match goal with |- Rabs ?e + 0 = 0 => replace e with 0 by ring end.
    rewrite Rabs_R0. ring. }
  assert (H21 : l1_dist (nth 2 rhos_2 []) (nth 4 rhos []) = 0).
  { unfold l1_dist. simpl.
    match goal with |- Rabs ?e + 0 = 0 => replace e with 0 by ring end.
    rewrite Rabs_R0. ring. }
  rewrite H42, H21, np_log_zero in Hrate. simpl in Hrate.
  split; [exact Hrate|]. intros e. rewrite Hrate. discriminate.
Qed.

(** ** The integrator objects *)

(** C9, as the code has it.  The three homodyne classes expose
    [integrate(rho_0, times, U1s=None, U2s=None)], and the call of
    [calc_rate] with four positional arguments (as any call with two or
    three) binds.  The unconditional vacuum and Gaussian integrators are
    module-level functions [uncond_vac_integrate(rho_0, c_op, basis, times)]
    and [uncond_gauss_integrate(rho_0, c_op, M_sq, N, H, basis, times)]:
    they have no attribute [integrate], so that [calc_rate] fails on them
    with an [AttributeError], and no parameter of theirs takes noise. *)
Theorem integrate_contract_by_variant :
  (forall v : PyObj.variant,
     In v [PyObj.Taylor_1_5; PyObj.Milstein; PyObj.FaultyMilstein] ->
     PyObj.exposes_uniform_contract (PyObj.variant_object v)
     /\ PyObj.call_integrate (PyObj.variant_object v) 4
        = Ok ["rho_0"; "times"; "U1s"; "U2s"]%string
     /\ PyObj.call_integrate (PyObj.variant_object v) 3
        = Ok ["rho_0"; "times"; "U1s"]%string
     /\ PyObj.call_integrate (PyObj.variant_object v) 2
        = Ok ["rho_0"; "times"]%string)
  /\ (forall v : PyObj.variant,
        In v [PyObj.UncondVac; PyObj.UncondGauss] ->
        PyObj.getattr (PyObj.variant_object v) "integrate"
        = Raise AttributeError
        /\ (forall nargs : nat,
              PyObj.call_integrate (PyObj.variant_object v) nargs
              = Raise AttributeError)
        /\ PyObj.takes (PyObj.variant_object v) "U1s" = false
        /\ PyObj.takes (PyObj.variant_object v) "U2s" = false)
  /\ PyObj.own_params PyObj.uncond_vac_integrate
     = map PyObj.req ["rho_0"; "c_op"; "basis"; "times"]%string
  /\ PyObj.own_params PyObj.uncond_gauss_integrate
     = map PyObj.req
         ["rho_0"; "c_op"; "M_sq"; "N"; "H"; "basis"; "times"]%string.
Proof.
  split; [|split; [|split; reflexivity]].
  - intros v [<-|[<-|[<-|[]]]]; repeat split; reflexivity.
  - intros v [<-|[<-|[]]]; repeat split; reflexivity.
Qed.

(** C9 as stated fails: the unconditional vacuum integrator does not expose
    the uniform contract. *)
Lemma integrate_contract_counterexample :
  PyObj.getattr (PyObj.variant_object PyObj.UncondVac) "integrate"
  = Raise AttributeError
  /\ ~ PyObj.exposes_uniform_contract (PyObj.variant_object PyObj.UncondVac)
  /\ ~ (forall v : PyObj.variant,
          PyObj.exposes_uniform_contract (PyObj.variant_object v)).
Proof.
  assert (Hno : ~ PyObj.exposes_uniform_contract
                    (PyObj.variant_object PyObj.UncondVac))
    by (unfold PyObj.exposes_uniform_contract; simpl; discriminate).
  split; [reflexivity|]. split; [exact Hno|].
  intros Hall. exact (Hno (Hall PyObj.UncondVac)).
Qed.

Section IntegratorProperties.
Context {SB : system_builder} {SDE : sde}.

(** The methods of a constructed instance are the module-level functions on
    the products that [__init__] stores. *)
Lemma Taylor_methods_of_init (basis : list operator) (Q G : matrix)
    (k_T rho : vector) :
  let self := Taylor_1_5_init basis Q G k_T in
  T_b_dx_b_fn self rho = b_dx_b (matmul G G) (vecmat k_T G) G k_T rho
  /\ T_a_dx_b_fn self rho = a_dx_b (matmul G Q) k_T Q (vecmat k_T Q) rho
  /\ T_b_dx_b_dx_b_fn self rho
     = b_dx_b_dx_b (matmul (matmul G G) G) (matmul G G) G k_T
         (vecmat k_T G) (vecmat k_T (matmul G G)) rho
  /\ T_b_fn self rho = b_field G k_T rho
  /\ T_a_fn self rho = a_field Q rho.
Proof. cbv zeta. repeat split; reflexivity. Qed.

(** The Milstein correction term of a constructed instance is [(b.grad) b]
    for the diffusion field of that instance. *)
Lemma Milstein_b_dx_b_fn_exact (n : nat) (basis : list operator)
    (Q G : matrix) (k_T rho : vector) (t : R) :
  mat_shape n G = true -> length k_T = n -> length rho = n ->
  let self := Milstein_init basis Q G k_T in
  dir_deriv (fun x => M_b_fn self x t) rho (M_b_fn self rho t)
    (M_b_dx_b_fn self rho t).
Proof.
  intros HG Hk Hrho self.
  change (dir_deriv (b_field G k_T) rho (b_field G k_T rho)
            (b_dx_b (matmul G G) (vecmat k_T G) G k_T rho)).
  rewrite (b_dx_b_closed_form n), <- (b_grad_b_field_closed n) by assumption.
  now apply (b_grad_b_field_dir_deriv n).
Qed.

(** C10.  [MilsteinHomodyneIntegrator.integrate] never reads [U2s]: as a
    computation on the generator it is the same for any two values of the
    argument, whether or not [U1s] is supplied; and with [U1s] supplied it is
    the [milstein] stepper on the fields of the instance, the generator left
    as it was. *)
Theorem Milstein_integrate_ignores_U2s (self : MilsteinHomodyneIntegrator)
    (rho_0 : operator) (times U1s : Np.array) (U1s_opt : option Np.array)
    (U2s U2s' : option Np.array) :
  M_integrate self rho_0 times U1s_opt U2s
  = M_integrate self rho_0 times U1s_opt U2s'
  /\ integrate self rho_0 times (Some U1s) U2s
     = integrate self rho_0 times (Some U1s) U2s'
  /\ forall g : rng,
       M_integrate self rho_0 times (Some U1s) U2s g
       = match milstein (M_a_fn self) (M_b_fn self) (M_b_dx_b_fn self)
                 (rho_0_vec_of rho_0 (M_basis self)) times U1s with
         | Ok rhos => Ok (rhos, g)
         | Raise e => Raise e
         end.
Proof.
  split; [|split].
  - destruct U1s_opt; reflexivity.
  - reflexivity.
  - intros g. reflexivity.
Qed.

End IntegratorProperties.

(** The argument is not idle in every integrator: for a Taylor stepper that
    hands back the noise it was given, the trajectory of
    [Taylor_1_5_HomodyneIntegrator.integrate] follows [U2s]. *)
Lemma Taylor_integrate_reads_U2s :
  exists (SB : system_builder) (SDE : sde)
         (self : Taylor_1_5_HomodyneIntegrator) (rho_0 : operator),
    T_integrate self rho_0 [0; 1] (Some [0]) (Some [0]) rng0
    <> T_integrate self rho_0 [0; 1] (Some [0]) (Some [1]) rng0.
Proof.
  exists {| operator := unit; vectorize := fun _ _ => [] |}.
  exists {| milstein := fun _ _ _ _ _ _ => Ok [];
            faulty_milstein := fun _ _ _ _ _ _ => Ok [];
            time_ind_taylor_1_5 :=
              fun _ _ _ _ _ _ _ _ _ U1s U2s => Ok [U1s; U2s] |}.
  exists (Taylor_1_5_init [] [] [] []), tt.
  simpl. intros E. injection E as E. lra.
Qed.

(** * Further properties of the code *)

(** ** Products and sums of operators *)

Lemma mat_shape_intro (n : nat) (A : matrix) :
  length A = n -> Forall (fun row => length row = n) A ->
  mat_shape n A = true.
Proof.
  intros HA Hrows. unfold mat_shape. apply andb_true_intro. split.
  - now apply Nat.eqb_eq.
  - apply forallb_forall. intros row Hin. apply Nat.eqb_eq.
    rewrite Forall_forall in Hrows. now apply Hrows.
Qed.

Lemma mat_shape_matmul (n : nat) (A B : matrix) :
  mat_shape n A = true -> mat_shape n B = true ->
  mat_shape n (matmul A B) = true.
Proof.
  intros HA HB. pose proof (mat_shape_length n A HA) as HAl.
  pose proof (mat_shape_rows n A HA) as HAr.
  apply mat_shape_intro.
  - now rewrite length_matmul.
  - unfold matmul. apply Forall_forall. intros row Hin.
    apply in_map_iff in Hin. destruct Hin as (r & <- & Hr).
    rewrite Forall_forall in HAr.
    apply length_vecmat_square; auto.
    destruct A; [contradiction | simpl in HAl; lia].
Qed.

Lemma matvec_madd (n : nat) (A B : matrix) (x : vector) :
  mat_shape n A = true -> mat_shape n B = true ->
  matvec (madd A B) x = vadd (matvec A x) (matvec B x).
Proof.
  intros HA HB. pose proof (mat_shape_length n A HA) as HAl.
  pose proof (mat_shape_length n B HB) as HBl.
  apply (nth_ext _ _ 0 0); [shape_solve|].
  intros i Hi.
  assert (Hin : (i < n)%nat) by (revert Hi; shape_solve).
  to_entries.
  apply dot_vadd_l. now rewrite !(mat_shape_row n).
Qed.

Lemma matvec_mscale (c : R) (A : matrix) (x : vector) :
  matvec (mscale c A) x = vscale c (matvec A x).
Proof.
  unfold matvec, mscale, vscale. rewrite !map_map.
  apply map_ext. intros row. apply dot_vscale_l.
Qed.

Lemma mat_shape_mscale (n : nat) (c : R) (A : matrix) :
  mat_shape n A = true -> mat_shape n (mscale c A) = true.
Proof.
  intros HA. apply mat_shape_intro.
  - rewrite length_mscale. now apply mat_shape_length.
  - unfold mscale. apply Forall_forall. intros row Hin.
    apply in_map_iff in Hin. destruct Hin as (r & <- & Hr).
    rewrite length_vscale.
    pose proof (mat_shape_rows n A HA) as HAr.
    rewrite Forall_forall in HAr. now apply HAr.
Qed.

Lemma mat_shape_madd (n : nat) (A B : matrix) :
  mat_shape n A = true -> mat_shape n B = true ->
  mat_shape n (madd A B) = true.
Proof.
  intros HA HB. pose proof (mat_shape_length n A HA) as HAl.
  pose proof (mat_shape_length n B HB) as HBl.
  apply mat_shape_intro.
  - rewrite length_madd. vlia.
  - apply Forall_forall. intros row Hin.
    destruct (In_nth _ _ [] Hin) as (i & Hi & <-).
    rewrite length_madd in Hi.
    rewrite nth_madd, length_vadd, !(mat_shape_row n) by (auto; vlia).
    lia.
Qed.

(** The derivative of [x |-> A x] is [A]. *)
Lemma matvec_jacobian (A : matrix) (x : vector) :
  length A = length x -> jacobian_at (matvec A) x A.
Proof.
  intros HA v Hv. split.
  - now rewrite length_matvec.
  - intros i Hi.
    eapply dl_ext.
    { intros t. hold_rhs.
      rewrite nth_matvec, dot_vadd_r, dot_vscale_r
        by (rewrite length_vscale; vlia).
      as_function_of t. }
    eapply dl_eq; [dl_solve|].
    rewrite nth_matvec. ring.
Qed.

(** ** The remaining derivative terms *)



(** X2.  On the product [Q^2] that the constructor precomputes, [a_dx_a]
    returns [Q (Q rho)], the directional derivative at [rho] of the drift
    along itself. *)
Theorem a_dx_a_exact (n : nat) (Q : matrix) (rho : vector) :
  mat_shape n Q = true -> vec_shape n rho = true ->
  a_dx_a (matmul Q Q) rho = matvec Q (matvec Q rho)
  /\ dir_deriv (a_field Q) rho (a_field Q rho) (a_dx_a (matmul Q Q) rho).
Proof.
  intros HQ Hrho. apply vec_shape_length in Hrho.
  pose proof (mat_shape_length n Q HQ) as HQl.
  unfold a_dx_a. rewrite (matvec_matmul n) by assumption.
  split; [reflexivity|].
  apply matvec_jacobian; [vlia|].
  unfold a_field. rewrite length_matvec. vlia.
Qed.

Lemma a_dx_a_exact_witness :
  a_dx_a (matmul [[0; 1]; [2; 3]] [[0; 1]; [2; 3]]) [1; 2]
  = matvec [[0; 1]; [2; 3]] (matvec [[0; 1]; [2; 3]] [1; 2])
  /\ dir_deriv (a_field [[0; 1]; [2; 3]]) [1; 2]
       (a_field [[0; 1]; [2; 3]] [1; 2])
       (a_dx_a (matmul [[0; 1]; [2; 3]] [[0; 1]; [2; 3]]) [1; 2]).
Proof.
  apply (a_dx_a_exact 2 [[0; 1]; [2; 3]] [1; 2]); reflexivity.
Defined.

Lemma dot_zeros_l (n : nat) : forall x : vector, dot (repeat 0 n) x = 0.
Proof.
  induction n as [|n IH]; intros x; [reflexivity|].
  destruct x as [|a x]; [apply dot_nil_r|].
  simpl repeat. rewrite dot_cons, IH. ring.
Qed.

Lemma dot_vecmat_square (n : nat) (A : matrix) (k x : vector) :
  mat_shape n A = true -> length k = n ->
  dot (vecmat k A) x = dot k (matvec A x).
Proof.
  intros HA Hk. apply (dot_vecmat n).
  - rewrite (mat_shape_length n A HA). exact Hk.
  - now apply mat_shape_rows.
Qed.

(** X3.  What [b_dx_b_dx_b] computes on the products of the constructor:
    the closed form of [(b.grad)^2 b] plus [6 (s - s^2) G rho], where
    [s = k^T rho].  It is the derivative exactly when that term vanishes, as
    it does for [s = 0] and for [s = 1]. *)
Theorem b_dx_b_dx_b_computes (n : nat) (G : matrix) (k rho : vector) :
  mat_shape n G = true -> vec_shape n k = true -> vec_shape n rho = true ->
  let G2 := matmul G G in
  let G3 := matmul G2 G in
  let s := dot k rho in
  let code := b_dx_b_dx_b G3 G2 G k (vecmat k G) (vecmat k G2) rho in
  code = vadd (b_dx_b_dx_b_closed G k rho)
              (vscale (6 * (s - s ^ 2)) (matvec G rho))
  /\ (s = 0 \/ s = 1 -> code = b_dx_b_dx_b_closed G k rho)
  /\ (code = b_dx_b_dx_b_closed G k rho <->
      forall i : nat, (i < n)%nat -> (s - s ^ 2) * nth i (matvec G rho) 0 = 0).
Proof.
  intros HG Hk Hrho G2 G3 s code.
  apply vec_shape_length in Hk, Hrho.
  pose proof (mat_shape_length n G HG) as HGl.
  pose proof (mat_shape_matmul n G G HG HG) as HG2.
  pose proof (mat_shape_matmul n _ G HG2 HG) as HG3.
  assert (Hcode : forall i : nat,
             nth i code 0
             = nth i (b_dx_b_dx_b_closed G k rho) 0
               + 6 * (s - s ^ 2) * nth i (matvec G rho) 0).
  { intros i. subst code G3 G2 s. unfold b_dx_b_dx_b, b_dx_b_dx_b_closed.
    cbv zeta.
    rewrite !(matvec_madd n), !matvec_mscale, !(matvec_matmul n),
      !(dot_vecmat_square n)
      by auto using mat_shape_madd, mat_shape_mscale.
    rewrite (matvec_matmul n) by assumption.
    to_entries. simpl pow. ring. }
  assert (Hlen : length code = length (b_dx_b_dx_b_closed G k rho)).
  { subst code G3 G2. unfold b_dx_b_dx_b, b_dx_b_dx_b_closed.
    shape_solve. }
  assert (Hlen' : length (b_dx_b_dx_b_closed G k rho) = n)
    by (unfold b_dx_b_dx_b_closed; shape_solve).
  split; [|split].
  - apply (nth_ext _ _ 0 0); [rewrite Hlen; shape_solve|].
    intros i _. rewrite Hcode. to_entries. ring.
  - intros Hs. apply (nth_ext _ _ 0 0); [exact Hlen|].
    intros i _. rewrite Hcode.
    destruct Hs as [-> | ->]; simpl pow; ring.
  - split.
    + intros E i _. pose proof (Hcode i) as Hi. rewrite E in Hi. lra.
    + intros Hz. apply (nth_ext _ _ 0 0); [exact Hlen|].
      intros i Hi. rewrite Hcode.
      rewrite Rmult_assoc, Hz by lia. ring.
Qed.

Lemma b_dx_b_dx_b_computes_witness :
  let G := [[1; 0]; [0; 1]] in
  let k := [1; 0] in
  let rho := [1; 5] in
  b_dx_b_dx_b (matmul (matmul G G) G) (matmul G G) G k (vecmat k G)
    (vecmat k (matmul G G)) rho
  = b_dx_b_dx_b_closed G k rho.
Proof.
  cbv zeta.
  pose proof (b_dx_b_dx_b_computes 2 [[1; 0]; [0; 1]] [1; 0] [1; 5]
                eq_refl eq_refl eq_refl) as H.
  cbv zeta in H. destruct H as (_ & H & _).
  apply H. right. unfold dot. simpl. ring.
Defined.

(** X4.  What [a_dx_b] computes on the products of the constructor: in
    component [i] it is the closed form of [(a.grad) b] plus
    [(k^T Q rho) (1 - rho_i)].  It is the derivative exactly when
    [k^T Q rho = 0] or every component of [rho] is 1. *)
Theorem a_dx_b_computes (n : nat) (G Q : matrix) (k rho : vector) :
  mat_shape n G = true -> mat_shape n Q = true -> vec_shape n k = true ->
  vec_shape n rho = true ->
  let q := dot k (matvec Q rho) in
  let code := a_dx_b (matmul G Q) k Q (vecmat k Q) rho in
  length code = n
  /\ (forall i : nat, (i < n)%nat ->
        nth i code 0
        = nth i (a_dx_b_closed G Q k rho) 0 + q * (1 - nth i rho 0))
  /\ (code = a_dx_b_closed G Q k rho <->
      forall i : nat, (i < n)%nat -> q * (1 - nth i rho 0) = 0).
Proof.
  intros HG HQ Hk Hrho q code.
  apply vec_shape_length in Hk, Hrho.
  pose proof (mat_shape_length n G HG) as HGl.
  pose proof (mat_shape_length n Q HQ) as HQl.
  pose proof (mat_shape_matmul n G Q HG HQ) as HGQ.
  assert (Hlen : length code = n).
  { subst code. unfold a_dx_b. shape_solve. }
  assert (Hlen' : length (a_dx_b_closed G Q k rho) = n)
    by (unfold a_dx_b_closed; shape_solve).
  assert (Hcode : forall i : nat, (i < n)%nat ->
             nth i code 0
             = nth i (a_dx_b_closed G Q k rho) 0 + q * (1 - nth i rho 0)).
  { intros i Hi. subst code q. unfold a_dx_b, a_dx_b_closed. cbv zeta.
    rewrite nth_vshift by shape_solve.
    rewrite (matvec_madd n), matvec_mscale, (matvec_matmul n),
      (dot_vecmat_square n)
      by auto using mat_shape_mscale.
    to_entries. ring. }
  split; [exact Hlen|]. split; [exact Hcode|]. split.
  - intros E i Hi. pose proof (Hcode i Hi) as H. rewrite E in H. lra.
  - intros Hz. apply (nth_ext _ _ 0 0); [congruence|].
    intros i Hi. rewrite Hlen in Hi. rewrite Hcode, Hz by assumption. ring.
Qed.

Lemma a_dx_b_computes_witness :
  let G := [[1; 2]; [3; 4]] in
  let Q := [[0; 1]; [2; 3]] in
  let k := [1; 1] in
  let rho := [1; 1] in
  let q := dot k (matvec Q rho) in
  let code := a_dx_b (matmul G Q) k Q (vecmat k Q) rho in
  length code = 2%nat
  /\ (forall i : nat, (i < 2)%nat ->
        nth i code 0
        = nth i (a_dx_b_closed G Q k rho) 0 + q * (1 - nth i rho 0))
  /\ (code = a_dx_b_closed G Q k rho <->
      forall i : nat, (i < 2)%nat -> q * (1 - nth i rho 0) = 0).
Proof.
  apply (a_dx_b_computes 2 [[1; 2]; [3; 4]] [[0; 1]; [2; 3]] [1; 1] [1; 1]);
    reflexivity.
Defined.

(** X5.  Without the nonlinear direction ([k^T = 0]) the five derivative
    terms are the plain products [G^2 rho], [Q G rho], [G Q rho], [Q^2 rho]
    and [G^3 rho]. *)
Theorem derivative_terms_linear_case (n : nat) (G Q : matrix) (rho : vector) :
  mat_shape n G = true -> mat_shape n Q = true -> vec_shape n rho = true ->
  let k := repeat 0 n in
  let G2 := matmul G G in
  b_dx_b G2 (vecmat k G) G k rho = matvec G (matvec G rho)
  /\ b_dx_a (matmul Q G) k Q rho = matvec Q (matvec G rho)
  /\ a_dx_b (matmul G Q) k Q (vecmat k Q) rho = matvec G (matvec Q rho)
  /\ a_dx_a (matmul Q Q) rho = matvec Q (matvec Q rho)
  /\ b_dx_b_dx_b (matmul G2 G) G2 G k (vecmat k G) (vecmat k G2) rho
     = matvec G (matvec G (matvec G rho)).
Proof.
  intros HG HQ Hrho k G2. apply vec_shape_length in Hrho.
  pose proof (mat_shape_length n G HG) as HGl.
  pose proof (mat_shape_length n Q HQ) as HQl.
  pose proof (mat_shape_matmul n G G HG HG) as HG2.
  assert (Hk : length k = n) by apply repeat_length.
  assert (Hdot : forall x : vector, dot k x = 0) by apply dot_zeros_l.
  unfold b_dx_b, b_dx_a, a_dx_b, a_dx_a, b_dx_b_dx_b. cbv zeta. subst G2.
  rewrite !(matvec_madd n), !matvec_mscale, !(matvec_matmul n),
    !(dot_vecmat_square n), !Hdot
    by auto using mat_shape_madd, mat_shape_mscale, mat_shape_matmul.
  repeat split; apply (nth_ext _ _ 0 0); try shape_solve; intros i Hi.
  - to_entries. simpl pow. ring.
  - to_entries. ring.
  - rewrite nth_vshift by (revert Hi; shape_solve). to_entries. ring.
  - to_entries. simpl pow. ring.
Qed.

Lemma derivative_terms_linear_case_witness :
  let G := [[1; 2]; [3; 4]] in
  let Q := [[0; 1]; [2; 3]] in
  let rho := [5; 6] in
  let k := repeat 0 2 in
  let G2 := matmul G G in
  b_dx_b G2 (vecmat k G) G k rho = matvec G (matvec G rho)
  /\ b_dx_a (matmul Q G) k Q rho = matvec Q (matvec G rho)
  /\ a_dx_b (matmul G Q) k Q (vecmat k Q) rho = matvec G (matvec Q rho)
  /\ a_dx_a (matmul Q Q) rho = matvec Q (matvec Q rho)
  /\ b_dx_b_dx_b (matmul G2 G) G2 G k (vecmat k G) (vecmat k G2) rho
     = matvec G (matvec G (matvec G rho)).
Proof.
  apply (derivative_terms_linear_case 2 [[1; 2]; [3; 4]] [[0; 1]; [2; 3]]
           [5; 6]); reflexivity.
Defined.

(** ** The constructors *)

Section Constructors.
Context {SB : system_builder}.

(** X6.  The products stored by [__init__] act as the iterated operators
    their names stand for: [G2], [G3], [Q2], [QG] and [GQ] on a state are
    [G (G x)], [G (G (G x))], [Q (Q x)], [Q (G x)] and [G (Q x)], and the
    rows [k_T_G], [k_T_G2] and [k_T_Q] contract a state as [k^T] contracts
    [G x], [G (G x)] and [Q x]; the Milstein constructor stores the same
    [k_T_G] and [G2]. *)
Theorem init_products (n : nat) (basis : list operator) (Q G : matrix)
    (k_T x : vector) :
  mat_shape n Q = true -> mat_shape n G = true -> vec_shape n k_T = true ->
  let self := Taylor_1_5_init basis Q G k_T in
  matvec (T_G2 self) x = matvec G (matvec G x)
  /\ matvec (T_G3 self) x = matvec G (matvec G (matvec G x))
  /\ matvec (T_Q2 self) x = matvec Q (matvec Q x)
  /\ matvec (T_QG self) x = matvec Q (matvec G x)
  /\ matvec (T_GQ self) x = matvec G (matvec Q x)
  /\ dot (T_k_T_G self) x = dot k_T (matvec G x)
  /\ dot (T_k_T_G2 self) x = dot k_T (matvec G (matvec G x))
  /\ dot (T_k_T_Q self) x = dot k_T (matvec Q x)
  /\ M_k_T_G (Milstein_init basis Q G k_T) = T_k_T_G self
  /\ M_G2 (Milstein_init basis Q G k_T) = T_G2 self.
Proof.
  intros HQ HG Hk self. apply vec_shape_length in Hk.
  pose proof (mat_shape_matmul n G G HG HG) as HG2.
  simpl.
  rewrite !(dot_vecmat_square n), !(matvec_matmul n) by assumption.
  repeat split; reflexivity.
Qed.

End Constructors.

Lemma init_products_witness :
  let SB := {| operator := unit; vectorize := fun _ _ => [] |} in
  let Q := [[0; 1]; [2; 3]] in
  let G := [[1; 2]; [3; 4]] in
  let self := Taylor_1_5_init [] Q G [1; 1] in
  matvec (T_G3 self) [5; 6] = matvec G (matvec G (matvec G [5; 6]))
  /\ dot (T_k_T_G2 self) [5; 6] = dot [1; 1] (matvec G (matvec G [5; 6])).
Proof.
  cbv zeta.
  pose proof (@init_products {| operator := unit; vectorize := fun _ _ => [] |}
                2 [] [[0; 1]; [2; 3]] [[1; 2]; [3; 4]] [1; 1] [5; 6]
                eq_refl eq_refl eq_refl) as H.
  cbv zeta in H. destruct H as (_ & H3 & _ & _ & _ & _ & Hk & _).
  split; [exact H3 | exact Hk].
Defined.

(** ** The 1-norm *)

Lemma l1_norm_cons (a : R) (x : Np.array) :
  l1_norm (a :: x) = Rabs a + l1_norm x.
Proof. reflexivity. Qed.

Lemma l1_norm_nonneg : forall x : Np.array, 0 <= l1_norm x.
Proof.
  induction x as [|a x IH]; [unfold l1_norm; simpl; lra|].
  rewrite l1_norm_cons. pose proof (Rabs_pos a). lra.
Qed.

(** X7.  [l1_norm] is a norm on arrays: it is never negative, it is zero on
    the arrays of zeros only, it scales with the absolute value of a scalar
    factor, and on two arrays of one length the norm of the sum is at most
    the sum of the norms. *)
Theorem l1_norm_is_norm (c : R) (x y : Np.array) :
  0 <= l1_norm x
  /\ (l1_norm x = 0 <-> Forall (fun v => v = 0) x)
  /\ l1_norm (Np.smul c x) = Rabs c * l1_norm x
  /\ (length x = length y ->
      exists z : Np.array,
        Np.add x y = Ok z /\ l1_norm z <= l1_norm x + l1_norm y).
Proof.
  split; [apply l1_norm_nonneg|]. split; [|split].
  - induction x as [|a x IH].
    + split; [constructor | reflexivity].
    + rewrite l1_norm_cons. split.
      * intros H0. pose proof (Rabs_pos a). pose proof (l1_norm_nonneg x).
        constructor.
        -- destruct (Req_dec a 0) as [E|E]; [exact E|].
           pose proof (Rabs_pos_lt a E). lra.
        -- apply IH. lra.
      * intros HF. inversion HF as [|? ? Ha Hx]; subst.
        rewrite Rabs_R0, (proj2 IH Hx). ring.
  - induction x as [|a x IH]; [unfold l1_norm; simpl; ring|].
    change (Np.smul c (a :: x)) with (c * a :: Np.smul c x).
    rewrite !l1_norm_cons, IH, Rabs_mult. ring.
  - intros Hlen. exists (Np.map2 Rplus x y). split.
    + now apply broadcast_same_shape.
    + clear c. revert y Hlen.
      induction x as [|a x IH]; intros [|b y] Hlen; try discriminate.
      * unfold l1_norm. simpl. lra.
      * change (Np.map2 Rplus (a :: x) (b :: y))
          with (a + b :: Np.map2 Rplus x y).
        rewrite !l1_norm_cons.
        pose proof (Rabs_triang a b).
        assert (Hl : length x = length y) by (simpl in Hlen; lia).
        pose proof (IH y Hl). lra.
Qed.

(** ** More on the coarsening *)

Lemma sqrt2_sqr : sqrt 2 * sqrt 2 = 2.
Proof. apply sqrt_sqrt. lra. Qed.

Lemma sqrt3_sqr : sqrt 3 * sqrt 3 = 3.
Proof. apply sqrt_sqrt. lra. Qed.

Lemma sqrt2_pos : 0 < sqrt 2.
Proof. apply sqrt_lt_R0. lra. Qed.

Lemma sqrt3_pos : 0 < sqrt 3.
Proof. apply sqrt_lt_R0. lra. Qed.

(** X8.  On an evenly spaced grid of [n] intervals, [n] even, the coarsened
    grid starts and ends where the grid does and is evenly spaced with twice
    the step. *)
Theorem double_increments_grid (n : nat) (dt : R) (times U1s U2s : list R) :
  Nat.Even n ->
  length times = S n -> length U1s = n -> length U2s = n ->
  (forall i : nat, (i < n)%nat -> nth (S i) times 0 - nth i times 0 = dt) ->
  exists new_times new_U1s new_U2s : list R,
    double_increments times U1s (Some U2s)
    = Ok (new_times, new_U1s, Some new_U2s)
    /\ nth 0 new_times 0 = nth 0 times 0
    /\ nth (n / 2) new_times 0 = nth n times 0
    /\ forall i : nat, (i < n / 2)%nat ->
         nth (S i) new_times 0 - nth i new_times 0 = 2 * dt.
Proof.
  intros [m Hm] Ht H1 H2 Hdt. subst n.
  replace (2 * m / 2)%nat with m
    by (rewrite Nat.mul_comm; symmetry; apply Nat.div_mul; lia).
  destruct (double_increments_even m times U1s U2s H1 H2) as [E _].
  do 3 eexists. split; [exact E|].
  rewrite !nth_slice_from by lia. split; [reflexivity|].
  split; [f_equal; lia|].
  intros i Hi. rewrite !nth_slice_from by lia.
  replace (0 + S i * 2)%nat with (S (S (2 * i))) by lia.
  replace (0 + i * 2)%nat with (2 * i)%nat by lia.
  pose proof (Hdt (2 * i)%nat ltac:(lia)).
  pose proof (Hdt (S (2 * i)) ltac:(lia)).
  lra.
Qed.

Lemma double_increments_grid_witness :
  exists new_times new_U1s new_U2s : list R,
    double_increments [0; 1; 2; 3; 4] [1; 2; 3; 4] (Some [5; 6; 7; 8])
    = Ok (new_times, new_U1s, Some new_U2s)
    /\ nth 0 new_times 0 = nth 0 [0; 1; 2; 3; 4] 0
    /\ nth (4 / 2) new_times 0 = nth 4 [0; 1; 2; 3; 4] 0
    /\ forall i : nat, (i < 4 / 2)%nat ->
         nth (S i) new_times 0 - nth i new_times 0 = 2 * 1.
Proof.
  apply (double_increments_grid 4 1 [0; 1; 2; 3; 4] [1; 2; 3; 4] [5; 6; 7; 8]).
  - exists 2%nat. reflexivity.
  - reflexivity.
  - reflexivity.
  - reflexivity.
  - intros i Hi.
    destruct i as [|[|[|[|i]]]]; simpl; try lra. lia.
Defined.

(** X9.  The coarsening keeps the Wiener path.  With the increment of an
    interval of length [h] built from its sample as [U1 * sqrt h], the
    increment of each coarse interval (of length [2 dt]) is the sum of the
    increments of the two fine intervals (of length [dt]) it covers. *)
Theorem double_increments_wiener_sum (n : nat) (dt : R)
    (times U1s U2s : list R) :
  Nat.Even n -> length U1s = n -> length U2s = n -> 0 <= dt ->
  exists new_times new_U1s new_U2s : list R,
    double_increments times U1s (Some U2s)
    = Ok (new_times, new_U1s, Some new_U2s)
    /\ forall i : nat, (i < n / 2)%nat ->
         nth i new_U1s 0 * sqrt (2 * dt)
         = nth (2 * i) U1s 0 * sqrt dt + nth (2 * i + 1) U1s 0 * sqrt dt.
Proof.
  intros [m Hm] H1 H2 Hdt. subst n.
  replace (2 * m / 2)%nat with m
    by (rewrite Nat.mul_comm; symmetry; apply Nat.div_mul; lia).
  destruct (double_increments_even m times U1s U2s H1 H2) as [E _].
  do 3 eexists. split; [exact E|].
  intros i Hi. rewrite (nth_coarsen_U1 m) by assumption.
  rewrite sqrt_mult by lra.
  pose proof sqrt2_pos. field. lra.
Qed.

Lemma double_increments_wiener_sum_witness :
  exists new_times new_U1s new_U2s : list R,
    double_increments [0; 1; 2] [1; 2] (Some [3; 4])
    = Ok (new_times, new_U1s, Some new_U2s)
    /\ forall i : nat, (i < 2 / 2)%nat ->
         nth i new_U1s 0 * sqrt (2 * 1)
         = nth (2 * i) [1; 2] 0 * sqrt 1 + nth (2 * i + 1) [1; 2] 0 * sqrt 1.
Proof.
  apply (double_increments_wiener_sum 2 1 [0; 1; 2] [1; 2] [3; 4]).
  - exists 1%nat. reflexivity.
  - reflexivity.
  - reflexivity.
  - lra.
Defined.

(** X10.  Each coarse pair is an orthonormal combination of the four fine
    samples under it: there are two rows of four coefficients, of unit
    length and orthogonal to each other, such that [U1'_i] and [U2'_i] are
    their products with [(U1_{2i}, U1_{2i+1}, U2_{2i}, U2_{2i+1})].  Unit
    variance and zero correlation of independent samples are therefore
    kept. *)
Theorem double_increments_orthonormal :
  exists alpha beta : vector,
    dot alpha alpha = 1 /\ dot beta beta = 1 /\ dot alpha beta = 0
    /\ forall (m : nat) (times U1s U2s : list R),
         length U1s = (2 * m)%nat -> length U2s = (2 * m)%nat ->
         exists new_times new_U1s new_U2s : list R,
           double_increments times U1s (Some U2s)
           = Ok (new_times, new_U1s, Some new_U2s)
           /\ forall i : nat, (i < m)%nat ->
                let fine := [nth (2 * i) U1s 0; nth (2 * i + 1) U1s 0;
                             nth (2 * i) U2s 0; nth (2 * i + 1) U2s 0] in
                nth i new_U1s 0 = dot alpha fine
                /\ nth i new_U2s 0 = dot beta fine.
Proof.
  pose proof sqrt2_sqr as H2. pose proof sqrt3_sqr as H3.
  pose proof sqrt2_pos as P2.
  exists [/ sqrt 2; / sqrt 2; 0; 0].
  exists [sqrt 3 / (2 * sqrt 2); - sqrt 3 / (2 * sqrt 2);
          / (2 * sqrt 2); / (2 * sqrt 2)].
  split; [|split; [|split]].
  - unfold dot. simpl.
    replace (/ sqrt 2 * / sqrt 2 + (/ sqrt 2 * / sqrt 2 + (0 * 0 + (0 * 0 + 0))))
      with (2 / (sqrt 2 * sqrt 2)) by (field; lra).
    rewrite H2. field.
  - unfold dot. simpl.
    match goal with
    | |- ?e = 1 =>
        replace e
          with ((2 * (sqrt 3 * sqrt 3) + 2) / (4 * (sqrt 2 * sqrt 2)))
          by (field; lra)
    end.
    rewrite H2, H3. field.
  - unfold dot. simpl. field. lra.
  - intros m times U1s U2s HU1 HU2.
    destruct (double_increments_even m times U1s U2s HU1 HU2) as [E _].
    do 3 eexists. split; [exact E|].
    intros i Hi. cbv zeta.
    rewrite (nth_coarsen_U1 m), (nth_coarsen_U2 m) by assumption.
    unfold dot. simpl. split; field; lra.
Qed.

(** X11.  The coarsening keeps the double integral of the path.  With the
    order-1.5 increment of an interval of length [h] built from its samples
    as [Z = h sqrt h (U1 + U2 / sqrt 3) / 2] and its Wiener increment as
    [W = U1 sqrt h], the [Z] of a coarse interval is
    [Z_{2i} + Z_{2i+1} + dt W_{2i}], as for the integral of a path over two
    adjacent intervals. *)
Theorem double_increments_double_integral (n : nat) (dt : R)
    (times U1s U2s : list R) :
  Nat.Even n -> length U1s = n -> length U2s = n -> 0 <= dt ->
  exists new_times new_U1s new_U2s : list R,
    double_increments times U1s (Some U2s)
    = Ok (new_times, new_U1s, Some new_U2s)
    /\ forall i : nat, (i < n / 2)%nat ->
         let Z := fun h u1 u2 => h * sqrt h * (u1 + u2 / sqrt 3) / 2 in
         Z (2 * dt) (nth i new_U1s 0) (nth i new_U2s 0)
         = Z dt (nth (2 * i) U1s 0) (nth (2 * i) U2s 0)
           + Z dt (nth (2 * i + 1) U1s 0) (nth (2 * i + 1) U2s 0)
           + dt * (nth (2 * i) U1s 0 * sqrt dt).
Proof.
  intros [m Hm] H1 H2 Hdt. subst n.
  replace (2 * m / 2)%nat with m
    by (rewrite Nat.mul_comm; symmetry; apply Nat.div_mul; lia).
  destruct (double_increments_even m times U1s U2s H1 H2) as [E _].
  do 3 eexists. split; [exact E|].
  intros i Hi. cbv zeta beta.
  rewrite (nth_coarsen_U1 m), (nth_coarsen_U2 m) by assumption.
  rewrite sqrt_mult by lra.
  pose proof sqrt2_pos as P2. pose proof sqrt3_pos as P3.
  pose proof sqrt2_sqr as S2.
  set (a := nth (2 * i) U1s 0). set (b := nth (2 * i + 1) U1s 0).
  set (c := nth (2 * i) U2s 0). set (d := nth (2 * i + 1) U2s 0).
  set (r2 := sqrt 2) in *. set (r3 := sqrt 3) in *. set (rd := sqrt dt).
  replace (2 * dt * (r2 * rd)
           * ((a + b) / r2 + (r3 * (a - b) + c + d) / (2 * r2) / r3) / 2)
    with (dt * rd * ((a + b) + (a - b) / 2 + (c + d) / (2 * r3)))
    by (field; lra).
  field. lra.
Qed.

Lemma double_increments_double_integral_witness :
  exists new_times new_U1s new_U2s : list R,
    double_increments [0; 1; 2] [1; 2] (Some [3; 4])
    = Ok (new_times, new_U1s, Some new_U2s)
    /\ forall i : nat, (i < 2 / 2)%nat ->
         let Z := fun h u1 u2 => h * sqrt h * (u1 + u2 / sqrt 3) / 2 in
         Z (2 * 1) (nth i new_U1s 0) (nth i new_U2s 0)
         = Z 1 (nth (2 * i) [1; 2] 0) (nth (2 * i) [3; 4] 0)
           + Z 1 (nth (2 * i + 1) [1; 2] 0) (nth (2 * i + 1) [3; 4] 0)
           + 1 * (nth (2 * i) [1; 2] 0 * sqrt 1).
Proof.
  apply (double_increments_double_integral 2 1 [0; 1; 2] [1; 2] [3; 4]).
  - exists 1%nat. reflexivity.
  - reflexivity.
  - reflexivity.
  - lra.
Defined.

(** ** More on the convergence rate *)

Lemma ln_2_pos : 0 < ln 2.
Proof. pose proof ln_lt_2. lra. Qed.

(** X12.  The rate reads off the order.  When the three runs succeed and the
    difference of final states between the two coarser grids is [2^p] times
    the (nonzero) difference between the two finer ones, [calc_rate] returns
    [p]. *)
Theorem calc_rate_exact_order {Self State0 : Type} `{Integrator Self State0}
    (integrator : Self) (rho_0 : State0) (times U1s U2s : list R) (m : nat)
    (g g1 g2 g3 : rng) (rhos rhos_2 rhos_4 pre pre_2 pre_4 : trajectory)
    (rho_T rho_2_T rho_4_T : vector) (p : R) :
  length U1s = (4 * m)%nat ->
  length U2s = (4 * m)%nat ->
  integrate integrator rho_0 times (Some U1s) (Some U2s) g = Ok (rhos, g1) ->
  integrate integrator rho_0 (Np.slice_from 0 2 times)
    (Some (coarsen_U1 U1s)) (Some (coarsen_U2 U1s U2s)) g1
  = Ok (rhos_2, g2) ->
  integrate integrator rho_0 (Np.slice_from 0 4 times)
    (Some (coarsen_U1 (coarsen_U1 U1s)))
    (Some (coarsen_U2 (coarsen_U1 U1s) (coarsen_U2 U1s U2s))) g2
  = Ok (rhos_4, g3) ->
  rhos = pre ++ [rho_T] ->
  rhos_2 = pre_2 ++ [rho_2_T] ->
  rhos_4 = pre_4 ++ [rho_4_T] ->
  length rho_2_T = length rho_T ->
  length rho_4_T = length rho_T ->
  0 < l1_dist rho_2_T rho_T ->
  l1_dist rho_4_T rho_2_T = two_to p * l1_dist rho_2_T rho_T ->
  calc_rate integrator rho_0 times (Some U1s) (Some U2s) g = Ok (Fin p, g3).
Proof.
  intros HU1 HU2 Hrun Hrun_2 Hrun_4 Hlast Hlast_2 Hlast_4 Hdim_2 Hdim_4
    Hpos Hratio.
  rewrite (calc_rate_run integrator rho_0 times U1s U2s m HU1 HU2
             g g1 g2 g3 rhos rhos_2 rhos_4 Hrun Hrun_2 Hrun_4
             pre pre_2 pre_4 rho_T rho_2_T rho_4_T
             Hlast Hlast_2 Hlast_4 Hdim_2 Hdim_4).
  assert (Hexp : 0 < two_to p) by apply exp_pos.
  rewrite Hratio, !np_log_pos by (try apply Rmult_lt_0_compat; assumption).
  simpl. rewrite ln_mult by assumption.
  unfold two_to. rewrite ln_exp.
  pose proof ln_2_pos.
  match goal with
  | |- Ok (Fin ?e, _) = _ => replace e with p by (field; lra)
  end.
  reflexivity.
Qed.

Lemma calc_rate_exact_order_witness :
  calc_rate {| lam := 1 |} [1] [0; 1; 2; 3; 4]
    (Some [1; 2; 3; 4]) (Some [5; 6; 7; 8]) rng0
  = Ok (Fin ((ln 4 - ln 7) / ln 2), rng0).
Proof.
  pose (rhos := [1] :: euler_steps 1 [1] 0 [1; 2; 3; 4]).
  pose (rhos_2 := [1] :: euler_steps 1 [1] 0 [2; 4]).
  pose (rhos_4 := [1] :: euler_steps 1 [1] 0 [4]).
  assert (H42 : l1_dist (nth 1 rhos_4 []) (nth 2 rhos_2 []) = 4).
  { unfold l1_dist. simpl. rewrite Rabs_left; lra. }
  assert (H21 : l1_dist (nth 2 rhos_2 []) (nth 4 rhos []) = 7).
  { unfold l1_dist. simpl. rewrite Rabs_left; lra. }
  apply (calc_rate_exact_order {| lam := 1 |} [1] [0; 1; 2; 3; 4]
           [1; 2; 3; 4] [5; 6; 7; 8] 1 rng0 rng0 rng0 rng0
           rhos rhos_2 rhos_4
           (firstn 4 rhos) (firstn 2 rhos_2) (firstn 1 rhos_4)
           (nth 4 rhos []) (nth 2 rhos_2 []) (nth 1 rhos_4 [])
           ((ln 4 - ln 7) / ln 2)
           eq_refl eq_refl eq_refl eq_refl eq_refl eq_refl eq_refl eq_refl
           eq_refl eq_refl).
  - rewrite H21. lra.
  - rewrite H42, H21. unfold two_to.
    pose proof ln_2_pos.
    replace ((ln 4 - ln 7) / ln 2 * ln 2) with (ln 4 - ln 7) by (field; lra).
    unfold Rminus. rewrite exp_plus, exp_Ropp, !exp_ln by lra. field.
Defined.

(** X13.  Omitted noise is drawn once, before anything else: [U1s] is the
    next [len(times) - 1] samples of the generator and [U2s] the
    [len(times) - 1] after them, and the rest of [calc_rate] goes on as if
    these had been supplied; on an empty time grid the draw is a
    [ValueError]. *)
Theorem calc_rate_draws_noise_once {Self State0 : Type}
    `{Integrator Self State0} (integrator : Self) (rho_0 : State0)
    (times U : list R) (n : nat) (g : rng) :
  length times = S n ->
  calc_rate integrator rho_0 times None None g
  = calc_rate integrator rho_0 times
      (Some (samples g (cursor g) n)) (Some (samples g (cursor g + n) n))
      (advance (advance g n) n)
  /\ calc_rate integrator rho_0 times None (Some U) g
     = calc_rate integrator rho_0 times
         (Some (samples g (cursor g) n)) (Some U) (advance g n)
  /\ calc_rate integrator rho_0 times (Some U) None g
     = calc_rate integrator rho_0 times
         (Some U) (Some (samples g (cursor g) n)) (advance g n)
  /\ calc_rate integrator rho_0 [] None (Some U) g = Raise ValueError
  /\ calc_rate integrator rho_0 [] (Some U) None g = Raise ValueError.
Proof.
  intros Ht.
  assert (Hn : len_minus_1 times = Z.of_nat n)
    by (unfold len_minus_1; rewrite Ht; lia).
  unfold calc_rate. rewrite Hn.
  unfold bind, or_randn, ret, randn.
  assert (Hneg : (Z.of_nat n <? 0)%Z = false) by (apply Z.ltb_ge; lia).
  rewrite Hneg, Znat.Nat2Z.id. simpl cursor. simpl tape.
  repeat split; reflexivity.
Qed.

Lemma calc_rate_draws_noise_once_witness :
  calc_rate {| lam := 1 |} [1] [0; 1; 2; 3; 4] None None rng0
  = calc_rate {| lam := 1 |} [1] [0; 1; 2; 3; 4]
      (Some (samples rng0 0 4)) (Some (samples rng0 4 4))
      (advance (advance rng0 4) 4).
Proof.
  apply (calc_rate_draws_noise_once {| lam := 1 |} [1] [0; 1; 2; 3; 4] []
           4 rng0 eq_refl).
Defined.

Lemma add_halves_raises (U : list R) :
  Nat.Odd (length U) -> (5 <= length U)%nat ->
  Np.add (Np.slice_from 0 2 U) (Np.slice_from 1 2 U) = Raise ValueError.
Proof.
  intros [k Hk] H5. unfold Np.add.
  assert (He : length (Np.slice_from 0 2 U) = S k).
  { rewrite length_slice_even, Hk.
    replace (2 * k + 1 + 1)%nat with ((1 + k) * 2)%nat by lia.
    now rewrite Nat.div_mul by lia. }
  assert (Ho : length (Np.slice_from 1 2 U) = k).
  { rewrite length_slice_odd, Hk.
    replace (2 * k + 1)%nat with (1 + k * 2)%nat by lia.
    rewrite Nat.div_add by lia. reflexivity. }
  apply broadcast_raises; rewrite ?He, ?Ho; lia.
Qed.

(** X14.  The number of increments is checked by nothing but the shapes of
    the coarsening: with noise of odd length 5 or more, or of length [2 k]
    for an odd [k] of 5 or more, [calc_rate] is a [ValueError], whatever the
    integrator and before it is run. *)
Theorem calc_rate_rejects_increments {Self State0 : Type}
    `{Integrator Self State0} (integrator : Self) (rho_0 : State0)
    (times U1s U2s : list R) (g : rng) :
  (Nat.Odd (length U1s) /\ (5 <= length U1s)%nat)
  \/ (exists k : nat,
        Nat.Odd k /\ (5 <= k)%nat /\ length U1s = (2 * k)%nat
        /\ length U2s = (2 * k)%nat) ->
  calc_rate integrator rho_0 times (Some U1s) (Some U2s) g
  = Raise ValueError.
Proof.
  intros [[Hodd H5] | (k & Hodd & H5 & H1 & H2)].
  - unfold calc_rate, bind, or_randn, ret, lift, double_increments.
    unfold Np.array in *.
    rewrite add_halves_raises by assumption. reflexivity.
  - destruct (double_increments_even k times U1s U2s H1 H2) as [E _].
    unfold calc_rate, bind, or_randn, ret, lift. unfold Np.array in *.
    rewrite E. simpl rbind. cbv iota beta.
    unfold double_increments.
    rewrite add_halves_raises
      by (rewrite (length_coarsen_U1 k); assumption).
    reflexivity.
Qed.

Lemma calc_rate_rejects_increments_witness :
  calc_rate {| lam := 1 |} [1] [0; 1; 2; 3; 4; 5; 6; 7; 8; 9; 10]
    (Some [1; 2; 3; 4; 5; 6; 7; 8; 9; 10])
    (Some [1; 2; 3; 4; 5; 6; 7; 8; 9; 10]) rng0
  = Raise ValueError.
Proof.
  apply calc_rate_rejects_increments.
  right. exists 5%nat. split; [exists 2%nat; reflexivity|].
  split; [lia|]. split; reflexivity.
Defined.

(** Case analysis on the stages of a computation in [Py]. *)
Ltac py_cases :=
  repeat match goal with
    | H : match ?x with _ => _ end = Ok _ |- _ =>
        let E := fresh "E" in destruct x eqn:E; try discriminate H
    | H : (let (_, _) := ?x in _) _ = Ok _ |- _ =>
        destruct x
    | H : (let (_, _) := ?x in _) = Ok _ |- _ =>
        destruct x
    end.

Lemma calc_rate_supplied_pure {Self State0 : Type} `{Integrator Self State0}
    (integrator : Self) (rho_0 : State0) (times : list R) :
  (forall (ts U1 U2 : Np.array) (g g' : rng) (rhos : trajectory),
      integrate integrator rho_0 ts (Some U1) (Some U2) g = Ok (rhos, g') ->
      g' = g) ->
  forall (U1s U2s : Np.array) (g g' : rng) (rate : xfloat),
    calc_rate integrator rho_0 times (Some U1s) (Some U2s) g = Ok (rate, g') ->
    g' = g.
Proof.
  intros Hpure U1s U2s g g' rate Hc.
  unfold calc_rate, bind, or_randn, ret, lift in Hc.
  py_cases.
  repeat match goal with
    | E : integrate _ _ _ _ _ _ = Ok _ |- _ =>
        apply Hpure in E; subst
    end.
  congruence.
Qed.

(** X15.  For an integrator that leaves the generator as it was when both
    noises are supplied, so does [calc_rate] with supplied noise; and with
    both noises omitted a successful [calc_rate] has consumed exactly
    [2 (len(times) - 1)] samples, the three runs sharing them. *)
Theorem calc_rate_generator {Self State0 : Type} `{Integrator Self State0}
    (integrator : Self) (rho_0 : State0) (times : list R) (n : nat) :
  (forall (ts U1 U2 : Np.array) (g g' : rng) (rhos : trajectory),
      integrate integrator rho_0 ts (Some U1) (Some U2) g = Ok (rhos, g') ->
      g' = g) ->
  length times = S n ->
  (forall (U1s U2s : Np.array) (g g' : rng) (rate : xfloat),
      calc_rate integrator rho_0 times (Some U1s) (Some U2s) g
      = Ok (rate, g') ->
      g' = g)
  /\ (forall (g g' : rng) (rate : xfloat),
        calc_rate integrator rho_0 times None None g = Ok (rate, g') ->
        g' = advance g (2 * n)).
Proof.
  intros Hpure Ht.
  assert (Hsupplied :
            forall (U1s U2s : Np.array) (g g' : rng) (rate : xfloat),
              calc_rate integrator rho_0 times (Some U1s) (Some U2s) g
              = Ok (rate, g') -> g' = g).
  { now apply calc_rate_supplied_pure. }
  split; [exact Hsupplied|].
  intros g g' rate Hc.
  assert (Hn : len_minus_1 times = Z.of_nat n)
    by (unfold len_minus_1; rewrite Ht; lia).
  assert (Hneg : (Z.of_nat n <? 0)%Z = false) by (apply Z.ltb_ge; lia).
  assert (Hdraw :
            calc_rate integrator rho_0 times None None g
            = calc_rate integrator rho_0 times
                (Some (samples g (cursor g) n))
                (Some (samples g (cursor g + n) n))
                (advance (advance g n) n)).
  { unfold calc_rate. rewrite Hn. unfold bind, or_randn, ret, randn.
    rewrite Hneg, Znat.Nat2Z.id. reflexivity. }
  rewrite Hdraw in Hc. apply Hsupplied in Hc. subst g'.
  unfold advance. simpl. f_equal. lia.
Qed.

Lemma calc_rate_generator_witness :
  (forall (U1s U2s : Np.array) (g g' : rng) (rate : xfloat),
      calc_rate {| lam := 1 |} [1] [0; 1; 2; 3; 4] (Some U1s) (Some U2s) g
      = Ok (rate, g') ->
      g' = g)
  /\ (forall (g g' : rng) (rate : xfloat),
        calc_rate {| lam := 1 |} [1] [0; 1; 2; 3; 4] None None g
        = Ok (rate, g') ->
        g' = advance g (2 * 4)).
Proof.
  apply (calc_rate_generator {| lam := 1 |} [1] [0; 1; 2; 3; 4] 4).
  - intros ts U1 U2 g g' rhos E.
    unfold integrate, Euler_Integrator, euler_integrate, ret in E.
    destruct ts; injection E; auto.
  - reflexivity.
Defined.

(** ** The integrate methods and the generator *)

Section IntegrateAndGenerator.
Context {SB : system_builder} {SDE : sde}.

(** X16.  [Taylor_1_5_HomodyneIntegrator.integrate] draws what it is not
    given and nothing else: with both noises supplied the generator is left
    as it was; an omitted [U1s] is the next [len(times) - 1] samples, an
    omitted [U2s] the [len(times) - 1] samples after those of [U1s]; on an
    empty time grid an omitted noise is a [ValueError], raised before the
    stepper is called. *)
Theorem Taylor_integrate_draws (self : Taylor_1_5_HomodyneIntegrator)
    (rho_0 : operator) (times U1s U2s : Np.array) (n : nat) (g : rng) :
  length times = S n ->
  (forall (rhos : trajectory) (g' : rng),
      T_integrate self rho_0 times (Some U1s) (Some U2s) g = Ok (rhos, g') ->
      g' = g)
  /\ T_integrate self rho_0 times None None g
     = T_integrate self rho_0 times
         (Some (samples g (cursor g) n)) (Some (samples g (cursor g + n) n))
         (advance (advance g n) n)
  /\ T_integrate self rho_0 times (Some U1s) None g
     = T_integrate self rho_0 times
         (Some U1s) (Some (samples g (cursor g) n)) (advance g n)
  /\ T_integrate self rho_0 times None (Some U2s) g
     = T_integrate self rho_0 times
         (Some (samples g (cursor g) n)) (Some U2s) (advance g n)
  /\ T_integrate self rho_0 [] None (Some U2s) g = Raise ValueError
  /\ T_integrate self rho_0 [] (Some U1s) None g = Raise ValueError.
Proof.
  intros Ht.
  assert (Hn : len_minus_1 times = Z.of_nat n)
    by (unfold len_minus_1; rewrite Ht; lia).
  assert (Hneg : (Z.of_nat n <? 0)%Z = false) by (apply Z.ltb_ge; lia).
  split.
  - intros rhos g' E.
    unfold T_integrate, bind, or_randn, ret, lift in E.
    py_cases. congruence.
  - unfold T_integrate. rewrite Hn. unfold bind, or_randn, ret, randn.
    rewrite Hneg, Znat.Nat2Z.id. simpl cursor. simpl tape.
    repeat split; reflexivity.
Qed.


End IntegrateAndGenerator.

Lemma Taylor_integrate_draws_witness :
  let SB := {| operator := unit; vectorize := fun _ _ => [] |} in
  let SDE := {| milstein := fun _ _ _ _ _ _ => Ok [];
                faulty_milstein := fun _ _ _ _ _ _ => Ok [];
                time_ind_taylor_1_5 :=
                  fun _ _ _ _ _ _ _ _ _ U1s U2s => Ok [U1s; U2s] |} in
  T_integrate (Taylor_1_5_init [] [] [] []) tt [0; 1; 2] None None rng0
  = T_integrate (Taylor_1_5_init [] [] [] []) tt [0; 1; 2]
      (Some (samples rng0 0 2)) (Some (samples rng0 2 2))
      (advance (advance rng0 2) 2).
Proof.
  cbv zeta.
  apply (@Taylor_integrate_draws
           {| operator := unit; vectorize := fun _ _ => [] |}
           {| milstein := fun _ _ _ _ _ _ => Ok [];
              faulty_milstein := fun _ _ _ _ _ _ => Ok [];
              time_ind_taylor_1_5 :=
                fun _ _ _ _ _ _ _ _ _ U1s U2s => Ok [U1s; U2s] |}
           (Taylor_1_5_init [] [] [] []) tt [0; 1; 2] [] [] 2 rng0 eq_refl).
Defined.


(** ** The batch of trajectories *)

Lemma run_batch_length {A : Type} (f : Np.array -> Np.array -> Py A) :
  forall (pairs : list (Np.array * Np.array)) (g g' : rng) (rs : list A),
    run_batch f pairs g = Ok (rs, g') -> length rs = length pairs.
Proof.
  induction pairs as [|[U1s U2s] pairs IH]; intros g g' rs E.
  - injection E as <- _. reflexivity.
  - simpl in E. unfold bind, ret in E.
    destruct (f U1s U2s g) as [[r g1]|]; [|discriminate].
    destruct (run_batch f pairs g1) as [[rs' g2]|] eqn:E'; [|discriminate].
    injection E as <- _. simpl. f_equal. exact (IH _ _ _ E').
Qed.

Lemma run_batch_pure {A : Type} (f : Np.array -> Np.array -> Py A) (d : A) :
  (forall (U1s U2s : Np.array) (g g' : rng) (r : A),
      f U1s U2s g = Ok (r, g') -> g' = g) ->
  forall (pairs : list (Np.array * Np.array)) (g g' : rng) (rs : list A),
    run_batch f pairs g = Ok (rs, g') ->
    g' = g
    /\ forall i : nat, (i < length pairs)%nat ->
         f (fst (nth i pairs ([], []))) (snd (nth i pairs ([], []))) g
         = Ok (nth i rs d, g).
Proof.
  intros Hpure.
  induction pairs as [|[U1s U2s] pairs IH]; intros g g' rs E.
  - injection E as <- <-. split; [reflexivity|]. simpl. lia.
  - simpl in E. unfold bind, ret in E.
    destruct (f U1s U2s g) as [[r g1]|] eqn:E1; [|discriminate].
    destruct (run_batch f pairs g1) as [[rs' g2]|] eqn:E'; [|discriminate].
    injection E as <- <-.
    pose proof (Hpure _ _ _ _ _ E1) as ->.
    destruct (IH _ _ _ E') as [-> Hrows].
    split; [reflexivity|].
    intros [|i] Hi; simpl; [exact E1|].
    apply Hrows. simpl in Hi. lia.
Qed.

Lemma nth_combine_lt {A B : Type} (da : A) (db : B) :
  forall (x : list A) (y : list B) (i : nat),
    (i < length x)%nat -> (i < length y)%nat ->
    nth i (combine x y) (da, db) = (nth i x da, nth i y db).
Proof.
  induction x as [|a x IH]; intros [|b y] i Hx Hy; simpl in *; try lia.
  destruct i as [|i]; [reflexivity|]. apply IH; lia.
Qed.

(** X18.  With both arrays supplied, a batch that succeeds returns one rate
    per pair of rows that [zip] forms: as many as the shorter array has
    rows, whatever [trajectories] says. *)
Theorem strong_grid_convergence_count {Self State0 : Type}
    `{Integrator Self State0} (integrator : Self) (rho_0 : State0)
    (times : Np.array) (U1s_arr U2s_arr : list Np.array) (trajectories : Z)
    (g g' : rng) (rates : list xfloat) :
  strong_grid_convergence integrator rho_0 times (Some U1s_arr)
    (Some U2s_arr) trajectories g
  = Ok (rates, g') ->
  length rates = Nat.min (length U1s_arr) (length U2s_arr).
Proof.
  intros E. unfold strong_grid_convergence, bind, or_randn2, ret in E.
  rewrite (run_batch_length _ _ _ _ _ E). apply length_combine.
Qed.

Lemma strong_grid_convergence_count_witness :
  exists (rates : list xfloat) (g' : rng),
    strong_grid_convergence {| lam := 1 |} [1] [0; 1; 2; 3; 4]
      (Some [[1; 2; 3; 4]; [0; 0; 0; 0]])
      (Some [[5; 6; 7; 8]; [0; 0; 0; 0]; [1; 1; 1; 1]]) 256 rng0
    = Ok (rates, g')
    /\ length rates = 2%nat.
Proof.
  assert (E : exists (rates : list xfloat) (g' : rng),
             strong_grid_convergence {| lam := 1 |} [1] [0; 1; 2; 3; 4]
               (Some [[1; 2; 3; 4]; [0; 0; 0; 0]])
               (Some [[5; 6; 7; 8]; [0; 0; 0; 0]; [1; 1; 1; 1]]) 256 rng0
             = Ok (rates, g'))
    by (do 2 eexists; reflexivity).
  destruct E as (rates & g' & E).
  exists rates, g'. split; [exact E|].
  exact (strong_grid_convergence_count _ _ _ _ _ _ _ _ _ E).
Defined.

(** X19.  For an integrator that leaves the generator as it was when both
    noises are supplied, a batch on supplied arrays that succeeds leaves the
    generator as it was, and its rates are in the order of the rows: the
    [i]-th rate is what [calc_rate] returns on the [i]-th rows of the two
    arrays. *)
Theorem strong_grid_convergence_rows {Self State0 : Type}
    `{Integrator Self State0} (integrator : Self) (rho_0 : State0)
    (times : Np.array) (U1s_arr U2s_arr : list Np.array) (trajectories : Z)
    (g g' : rng) (rates : list xfloat) :
  (forall (ts U1 U2 : Np.array) (g g' : rng) (rhos : trajectory),
      integrate integrator rho_0 ts (Some U1) (Some U2) g = Ok (rhos, g') ->
      g' = g) ->
  strong_grid_convergence integrator rho_0 times (Some U1s_arr)
    (Some U2s_arr) trajectories g
  = Ok (rates, g') ->
  g' = g
  /\ forall i : nat, (i < length rates)%nat ->
       calc_rate integrator rho_0 times (Some (nth i U1s_arr []))
         (Some (nth i U2s_arr [])) g
       = Ok (nth i rates NaN, g).
Proof.
  intros Hpure E.
  unfold strong_grid_convergence, bind, or_randn2, ret in E.
  pose proof (run_batch_length _ _ _ _ _ E) as Hlen.
  destruct (run_batch_pure _ NaN
              (calc_rate_supplied_pure integrator rho_0 times Hpure)
              _ _ _ _ E) as [-> Hrows].
  split; [reflexivity|].
  intros i Hi. rewrite Hlen in Hi.
  specialize (Hrows i Hi).
  rewrite length_combine in Hi.
  rewrite (nth_combine_lt [] [] U1s_arr U2s_arr) in Hrows by vlia.
  exact Hrows.
Qed.

Lemma euler_integrate_pure (self : EulerIntegrator) (rho_0 : vector)
    (ts U1 U2 : Np.array) (g g' : rng) (rhos : trajectory) :
  integrate self rho_0 ts (Some U1) (Some U2) g = Ok (rhos, g') -> g' = g.
Proof.
  unfold integrate, Euler_Integrator, euler_integrate, ret.
  destruct ts; intros E; injection E; auto.
Qed.

Lemma strong_grid_convergence_rows_witness :
  exists (rates : list xfloat) (g' : rng),
    strong_grid_convergence {| lam := 1 |} [1] [0; 1; 2; 3; 4]
      (Some [[1; 2; 3; 4]; [0; 0; 0; 0]])
      (Some [[5; 6; 7; 8]; [0; 0; 0; 0]]) 256 rng0
    = Ok (rates, g')
    /\ g' = rng0
    /\ forall i : nat, (i < length rates)%nat ->
         calc_rate {| lam := 1 |} [1] [0; 1; 2; 3; 4]
           (Some (nth i [[1; 2; 3; 4]; [0; 0; 0; 0]] []))
           (Some (nth i [[5; 6; 7; 8]; [0; 0; 0; 0]] [])) rng0
         = Ok (nth i rates NaN, rng0).
Proof.
  assert (E : exists (rates : list xfloat) (g' : rng),
             strong_grid_convergence {| lam := 1 |} [1] [0; 1; 2; 3; 4]
               (Some [[1; 2; 3; 4]; [0; 0; 0; 0]])
               (Some [[5; 6; 7; 8]; [0; 0; 0; 0]]) 256 rng0
             = Ok (rates, g'))
    by (do 2 eexists; reflexivity).
  destruct E as (rates & g' & E).
  exists rates, g'. split; [exact E|].
  exact (strong_grid_convergence_rows {| lam := 1 |} [1] [0; 1; 2; 3; 4]
           [[1; 2; 3; 4]; [0; 0; 0; 0]] [[5; 6; 7; 8]; [0; 0; 0; 0]] 256
           rng0 g' rates (euler_integrate_pure {| lam := 1 |} [1]) E).
Defined.

(** [np.random.randn(rows, cols)] fills the array row after row. *)
Lemma draw_rows_spec (cols : nat) :
  forall (rows : nat) (g : rng),
    snd (draw_rows rows cols g) = advance g (rows * cols)
    /\ length (fst (draw_rows rows cols g)) = rows
    /\ forall i j : nat, (i < rows)%nat -> (j < cols)%nat ->
         nth j (nth i (fst (draw_rows rows cols g)) []) 0
         = tape g (cursor g + i * cols + j).
Proof.
  induction rows as [|rows IH]; intros g.
  - simpl. split; [|split; [reflexivity|lia]].
    unfold advance. destruct g as [tp c]. simpl. f_equal. lia.
  - simpl.
    specialize (IH {| tape := tape g; cursor := cursor g + cols |}).
    destruct (draw_rows rows cols
                {| tape := tape g; cursor := cursor g + cols |})
      as [rest g'] eqn:E.
    simpl in *. destruct IH as (Hg & Hlen & Hent).
    split; [|split].
    + rewrite Hg. unfold advance. simpl. f_equal. lia.
    + now rewrite Hlen.
    + intros [|i] j Hi Hj.
      * rewrite (nth_map_lt _ 0%nat) by (rewrite length_seq; lia).
        rewrite seq_nth by lia. f_equal. lia.
      * rewrite Hent by lia. f_equal. lia.
Qed.

(** X20.  With both arrays omitted, [trajectories = N >= 0] and
    [len(times) = n + 1], the batch draws [2 N n] samples before any run:
    [U1s_arr] is [N] rows of [n] consecutive samples each, [U2s_arr] the
    [N] rows after them, so that no sample serves twice, and the batch goes
    on as if these had been supplied. *)
Theorem strong_grid_convergence_draws {Self State0 : Type}
    `{Integrator Self State0} (integrator : Self) (rho_0 : State0)
    (times : Np.array) (trajectories : Z) (n : nat) (g : rng) :
  (0 <= trajectories)%Z -> length times = S n ->
  let N := Z.to_nat trajectories in
  exists U1s_arr U2s_arr : list Np.array,
    strong_grid_convergence integrator rho_0 times None None trajectories g
    = strong_grid_convergence integrator rho_0 times (Some U1s_arr)
        (Some U2s_arr) trajectories (advance g (2 * (N * n)))
    /\ length U1s_arr = N /\ length U2s_arr = N
    /\ forall i j : nat, (i < N)%nat -> (j < n)%nat ->
         nth j (nth i U1s_arr []) 0 = tape g (cursor g + i * n + j)
         /\ nth j (nth i U2s_arr []) 0
            = tape g (cursor g + N * n + i * n + j).
Proof.
  intros Hpos Ht N.
  assert (Hn : len_minus_1 times = Z.of_nat n)
    by (unfold len_minus_1; rewrite Ht; lia).
  assert (Hneg : ((trajectories <? 0) || (Z.of_nat n <? 0))%Z = false).
  { apply orb_false_intro; apply Z.ltb_ge; lia. }
  destruct (draw_rows_spec n N g) as (Hg1 & Hl1 & He1).
  destruct (draw_rows_spec n N (advance g (N * n))) as (Hg2 & Hl2 & He2).
  exists (fst (draw_rows N n g)),
         (fst (draw_rows N n (advance g (N * n)))).
  split; [|split; [exact Hl1|split; [exact Hl2|]]].
  - unfold strong_grid_convergence. rewrite Hn.
    unfold bind at 1. unfold or_randn2 at 1. unfold randn2 at 1.
    rewrite Hneg, Znat.Nat2Z.id. fold N.
    destruct (draw_rows N n g) as [A1 g1] eqn:E1. simpl in Hg1. subst g1.
    unfold bind at 1. unfold or_randn2 at 1. unfold randn2 at 1.
    rewrite Hneg, Znat.Nat2Z.id. fold N.
    destruct (draw_rows N n (advance g (N * n))) as [A2 g2] eqn:E2.
    simpl in Hg2. subst g2. simpl fst.
    unfold bind, or_randn2, ret.
    replace (advance (advance g (N * n)) (N * n))
      with (advance g (2 * (N * n)))
      by (unfold advance; simpl; f_equal; lia).
    reflexivity.
  - intros i j Hi Hj. split; [now apply He1|].
    rewrite He2 by assumption. reflexivity.
Qed.

Lemma strong_grid_convergence_draws_witness :
  exists U1s_arr U2s_arr : list Np.array,
    strong_grid_convergence {| lam := 1 |} [1] [0; 1; 2; 3; 4] None None 3
      rng0
    = strong_grid_convergence {| lam := 1 |} [1] [0; 1; 2; 3; 4]
        (Some U1s_arr) (Some U2s_arr) 3 (advance rng0 (2 * (3 * 4)))
    /\ length U1s_arr = 3%nat /\ length U2s_arr = 3%nat
    /\ forall i j : nat, (i < 3)%nat -> (j < 4)%nat ->
         nth j (nth i U1s_arr []) 0 = tape rng0 (cursor rng0 + i * 4 + j)
         /\ nth j (nth i U2s_arr []) 0
            = tape rng0 (cursor rng0 + 3 * 4 + i * 4 + j).
Proof.
  apply (strong_grid_convergence_draws {| lam := 1 |} [1] [0; 1; 2; 3; 4]
           3 4 rng0).
  - lia.
  - reflexivity.
Defined.

(** X21.  The edges of the batch.  With an array omitted, a negative
    [trajectories] or an empty time grid is a [ValueError] of the draw, and
    no run is made; [trajectories = 0] with both arrays omitted, or a
    supplied array without rows, returns the empty list of rates and leaves
    the generator as it was. *)
Theorem strong_grid_convergence_edges {Self State0 : Type}
    `{Integrator Self State0} (integrator : Self) (rho_0 : State0)
    (times : Np.array) (U_arr : list Np.array)
    (U_opt : option (list Np.array)) (trajectories : Z) (g : rng) :
  strong_grid_convergence integrator rho_0 [] None U_opt trajectories g
  = Raise ValueError
  /\ strong_grid_convergence integrator rho_0 [] (Some U_arr) None
       trajectories g
     = Raise ValueError
  /\ ((trajectories < 0)%Z ->
      strong_grid_convergence integrator rho_0 times None U_opt
        trajectories g
      = Raise ValueError
      /\ strong_grid_convergence integrator rho_0 times (Some U_arr) None
           trajectories g
         = Raise ValueError)
  /\ (times <> [] ->
      strong_grid_convergence integrator rho_0 times None None 0 g
      = Ok ([], g))
  /\ strong_grid_convergence integrator rho_0 times (Some []) (Some U_arr)
       trajectories g
     = Ok ([], g)
  /\ strong_grid_convergence integrator rho_0 times (Some U_arr) (Some [])
       trajectories g
     = Ok ([], g).
Proof.
  split; [|split; [|split; [|split; [|split]]]].
  - unfold strong_grid_convergence, bind, or_randn2, randn2.
    simpl. now rewrite orb_true_r.
  - unfold strong_grid_convergence, bind, or_randn2, randn2, ret.
    simpl. now rewrite orb_true_r.
  - intros Hneg. apply Z.ltb_lt in Hneg.
    unfold strong_grid_convergence, bind, or_randn2, randn2, ret.
    rewrite Hneg. simpl. split; reflexivity.
  - intros Hne. destruct times as [|t0 times]; [congruence|].
    unfold strong_grid_convergence, bind, or_randn2, randn2, ret.
    assert (Hc : (len_minus_1 (t0 :: times) <? 0)%Z = false)
      by (apply Z.ltb_ge; unfold len_minus_1; simpl length; lia).
    rewrite Hc. simpl. reflexivity.
  - reflexivity.
  - unfold strong_grid_convergence, bind, or_randn2, ret.
    rewrite combine_nil. reflexivity.
Qed.

(** ** The unconditional integrators *)

Section UnconditionalProperties.
Context {SB : system_builder} {LB : liouvillian_builder} {ODE : ode_solver}.


End UnconditionalProperties.

